(** * Shallow embedding of selected ScyllaDB components

    The development follows the C++ sources function by function:
    - [VoterRegistry]      service/raft/group0_voter_registry.{hh,cc} and the
                           voter client of its boost test;
    - [Credentials]        utils/s3/credentials_providers/instance_profile_credentials_provider.cc;
    - [ConsumedCapacity]   alternator/consumed_capacity.cc (64-bit counters and
                           binary64 capacity units);
    - [RetryableHttp]      utils/s3/retryable_http_client.cc;
    - [Selection]          cql3/selection/selection.cc;
    - [DelegatingReader]   readers/delegating_v2.hh.

    Asynchronous code (seastar futures and coroutines) is modelled by its
    sequential meaning: a [co_await] is a call, an exceptional future is an
    error result. *)

From Stdlib Require Import ZArith QArith Qpower Lia Floats.SpecFloat.
From stdpp Require Import gmap strings list.

#[local] Set Warnings "-clear-no-such-hyp".

Local Open Scope Z_scope.

(** ** Results of fallible code

    A C++ function that may throw returns [Ok v] or [Err e]. *)

Inductive result (E A : Type) : Type :=
| Ok (v : A)
| Err (e : E).
Arguments Ok {E A} v.
Arguments Err {E A} e.

Definition rbind {E A B} (r : result E A) (k : A -> result E B) : result E B :=
  match r with
  | Ok v => k v
  | Err e => Err e
  end.

Notation "'let?' x := r 'in' k" := (rbind r (fun x => k))
  (at level 10, x name, r at level 100, k at level 200).

(** * Group0 voter registry *)

Module VoterRegistry.

(** [raft::server_id] is an opaque identifier; only equality and hashing are
    used by the code. *)
Definition server_id := positive.

Inductive can_vote := can_vote_yes | can_vote_no.

(** A [std::unordered_set<raft::server_id>] passed as an argument is given by
    the sequence in which a range-for visits its elements: a duplicate-free
    list in an arbitrary (hash dependent) order. *)
Definition node_sequence := list server_id.

(** One call of [raft_voter_client::set_voters_status]. *)
Record status_call := {
  call_nodes : gset server_id;
  call_status : can_vote
}.

Record group0_voter_registry := {
  _max_voters : nat
}.

(** The loop of [group0_voter_registry::insert_nodes]: [new_voters] grows by
    one node per iteration and the loop breaks as soon as
    [new_voters.size() >= _max_voters]. *)
Fixpoint insert_nodes_loop (max_voters : nat) (nodes : node_sequence)
    (new_voters : gset server_id) : gset server_id :=
  match nodes with
  | [] => new_voters
  | node :: rest =>
      if decide (max_voters <= size new_voters)%nat then new_voters
      else insert_nodes_loop max_voters rest (new_voters ∪ {[node]})
  end.

(** [insert_nodes] ends in
    [_voter_client.set_voters_status(new_voters, can_vote::yes, as)]. *)
Definition insert_nodes (reg : group0_voter_registry) (nodes : node_sequence)
    : status_call :=
  {| call_nodes := insert_nodes_loop (_max_voters reg) nodes ∅;
     call_status := can_vote_yes |}.

(** [remove_nodes] forwards its argument unchanged with [can_vote::no]. *)
Definition remove_nodes (reg : group0_voter_registry) (nodes : node_sequence)
    : status_call :=
  {| call_nodes := list_to_set nodes; call_status := can_vote_no |}.

Definition insert_node (reg : group0_voter_registry) (node : server_id)
    : status_call := insert_nodes reg [node].

Definition remove_node (reg : group0_voter_registry) (node : server_id)
    : status_call := remove_nodes reg [node].

(** The [raft_voter_client] of the boost test: it keeps the voter set,
    inserting on [can_vote::yes] and erasing on [can_vote::no]. *)
Record raft_voter_client := {
  _voters : gset server_id
}.

Definition set_voters_status (c : raft_voter_client) (call : status_call)
    : raft_voter_client :=
  match call_status call with
  | can_vote_yes => {| _voters := _voters c ∪ call_nodes call |}
  | can_vote_no => {| _voters := _voters c ∖ call_nodes call |}
  end.

Definition voters (c : raft_voter_client) : gset server_id := _voters c.

(** Requests made to a registry, and a run of a request sequence against a
    voter client. *)
Inductive request :=
| InsertNode (node : server_id)
| InsertNodes (nodes : node_sequence)
| RemoveNode (node : server_id)
| RemoveNodes (nodes : node_sequence).

Definition forward (reg : group0_voter_registry) (r : request) : status_call :=
  match r with
  | InsertNode n => insert_node reg n
  | InsertNodes ns => insert_nodes reg ns
  | RemoveNode n => remove_node reg n
  | RemoveNodes ns => remove_nodes reg ns
  end.

Definition run (reg : group0_voter_registry) (rs : list request)
    (c : raft_voter_client) : raft_voter_client :=
  foldl (fun c r => set_voters_status c (forward reg r)) c rs.

(** The nodes ever forwarded with [can_vote::yes] during a request sequence. *)
Definition forwarded_yes (reg : group0_voter_registry) (rs : list request)
    : gset server_id :=
  foldl (fun acc r =>
           let call := forward reg r in
           match call_status call with
           | can_vote_yes => acc ∪ call_nodes call
           | can_vote_no => acc
           end) ∅ rs.

Definition empty_client : raft_voter_client := {| _voters := ∅ |}.

(** The number of insert requests in a request sequence. *)
Definition is_insert (r : request) : bool :=
  match r with
  | InsertNode _ | InsertNodes _ => true
  | RemoveNode _ | RemoveNodes _ => false
  end.

Fixpoint insert_requests (rs : list request) : nat :=
  match rs with
  | [] => O
  | r :: rest => ((if is_insert r then 1 else 0) + insert_requests rest)%nat
  end.

End VoterRegistry.

(** * Instance-profile credentials provider *)

Module Credentials.

(** [s3::aws_credentials]; time points are seconds on the system clock. *)
Record aws_credentials := {
  access_key_id : string;
  secret_access_key : string;
  session_token : string;
  expires_at : Z
}.

(** Modelled from the spec: [aws_credentials::operator bool] (utils/s3/creds.hh
    is not among the sources). "A credential is considered absent if any
    required field is unset"; the access key id and the secret access key are
    the required fields, the session token is optional. *)
Definition has_credentials (c : aws_credentials) : bool :=
  negb (String.eqb (access_key_id c) "") &&
  negb (String.eqb (secret_access_key c) "").

Definition session_duration : Z := 21600.

Record instance_profile_credentials_provider := {
  ec2_metadata_ip : string;
  port : Z;
  creds : aws_credentials
}.

(** A request sent to the metadata service: method, path and the one header
    the provider sets. *)
Record http_request := {
  req_method : string;
  req_path : string;
  req_header : string * string
}.

(** A value of the parsed document: a string, or a value of another kind
    (null, a boolean, a number, an array or an object). *)
Inductive json_value :=
| JString (s : string)
| JOther.

(** The body of the third reply as [rapidjson::Document::Parse] sees it: a
    parse error, an object given by its members in order, or a value that is
    no object. *)
Inductive parsed_document :=
| ParseError (reason : string) (offset : Z)
| Object (members : list (string * json_value))
| NotAnObject.

(** The document of a reply that has the three fields, as strings. *)
Definition Document (AccessKeyId SecretAccessKey Token : string)
    : parsed_document :=
  Object [("AccessKeyId"%string, JString AccessKeyId);
          ("SecretAccessKey"%string, JString SecretAccessKey);
          ("Token"%string, JString Token)].

(** What [parse_creds] throws: the [std::runtime_error] whose message is
    "Failed to parse EC2 Metadata credentials. Reason: [reason] (offset:
    [offset])", or a failed [RAPIDJSON_ASSERT]. What a failed assertion does
    is set where rapidjson is configured (utils/rjson.hh, not among the
    sources, makes it throw); it is taken as an exception here. *)
Inductive exception :=
| failed_to_parse (reason : string) (offset : Z)
| rapidjson_assertion.

(** [GetString()] hands out a NUL-terminated C string, and the assignment to
    a [std::string] copies it up to the first NUL. *)
Fixpoint c_string (s : string) : string :=
  match s with
  | EmptyString => EmptyString
  | String a rest =>
      if Ascii.eqb a Ascii.zero then EmptyString else String a (c_string rest)
  end.

(** [FindMember]: the value of the first member of that name. *)
Fixpoint FindMember (members : list (string * json_value)) (name : string)
    : option json_value :=
  match members with
  | [] => None
  | (n, v) :: rest => if String.eqb n name then Some v else FindMember rest name
  end.

(** [document[name].GetString()] as assigned to a [std::string]:
    [operator[]] asserts that the document is an object and has the member,
    [GetString] that the value is a string. *)
Definition member_string (doc : parsed_document) (name : string)
    : result exception string :=
  match doc with
  | Object members =>
      match FindMember members name with
      | Some (JString s) => Ok (c_string s)
      | _ => Err rapidjson_assertion
      end
  | _ => Err rapidjson_assertion
  end.

(** One [retryable_http_client::make_request] step of the provider. The
    client is built with the error handler [[](std::exception_ptr) {}], so a
    request that fails (after its retries) completes normally without having
    run the reply handler: [Failed]. Otherwise the reply handler runs on the
    body: [Replied]. *)
Inductive step_reply (A : Type) :=
| Replied (body : A)
| Failed.
Arguments Replied {A} body.
Arguments Failed {A}.

(** The metadata service as the provider meets it: the outcome of the token
    step, that of the role step for a token, and, for the third step, the
    bodies its reply handler is run on, in order. That handler calls
    [parse_creds], which may throw; the exception goes to the retrying
    client, whose strategy decides whether the request is tried again (and
    the handler run on the next reply) or given up. A run that returns ends
    the request; no run at all is the empty list. *)
Record metadata_service := {
  token_reply : step_reply string;
  role_reply : string -> step_reply string;
  credentials_reply : string -> string -> list parsed_document
}.

Definition is_time_to_refresh (now : Z) (p : instance_profile_credentials_provider)
    : bool :=
  expires_at (creds p) <=? now.

Definition set_creds (p : instance_profile_credentials_provider)
    (c : aws_credentials) : instance_profile_credentials_provider :=
  {| ec2_metadata_ip := ec2_metadata_ip p; port := port p; creds := c |}.

(** [parse_creds]: the provider afterwards and the exception thrown, if any.
    The four members of [creds] are assigned one after the other, so an
    exception at a later field leaves the earlier ones assigned. *)
Definition parse_creds (now : Z) (p : instance_profile_credentials_provider)
    (doc : parsed_document)
    : instance_profile_credentials_provider * option exception :=
  match doc with
  | ParseError reason offset => (p, Some (failed_to_parse reason offset))
  | _ =>
      match member_string doc "AccessKeyId" with
      | Err e => (p, Some e)
      | Ok key =>
          let p1 := set_creds p
                      {| access_key_id := key;
                         secret_access_key := secret_access_key (creds p);
                         session_token := session_token (creds p);
                         expires_at := expires_at (creds p) |} in
          match member_string doc "SecretAccessKey" with
          | Err e => (p1, Some e)
          | Ok secret =>
              let p2 := set_creds p1
                          {| access_key_id := key;
                             secret_access_key := secret;
                             session_token := session_token (creds p);
                             expires_at := expires_at (creds p) |} in
              match member_string doc "Token" with
              | Err e => (p2, Some e)
              | Ok token =>
                  (set_creds p2
                     {| access_key_id := key;
                        secret_access_key := secret;
                        session_token := token;
                        expires_at := now + (session_duration - 60) |},
                   None)
              end
          end
      end
  end.

(** The runs of the third reply handler: [parse_creds] on each body until a
    run returns. *)
Fixpoint parse_replies (now : Z) (p : instance_profile_credentials_provider)
    (docs : list parsed_document) : instance_profile_credentials_provider :=
  match docs with
  | [] => p
  | doc :: rest =>
      match parse_creds now p doc with
      | (p', None) => p'
      | (p', Some _) => parse_replies now p' rest
      end
  end.

Definition token_request : http_request :=
  {| req_method := "PUT"; req_path := "/latest/api/token";
     req_header := ("x-aws-ec2-metadata-token-ttl-seconds", "21600")%string |}.

Definition role_request (token : string) : http_request :=
  {| req_method := "GET";
     req_path := "/latest/meta-data/iam/security-credentials/";
     req_header := ("x-aws-ec2-metadata-token"%string, token) |}.

Definition credentials_request (token role : string) : http_request :=
  {| req_method := "GET";
     req_path := ("/latest/meta-data/iam/security-credentials/" ++ role)%string;
     req_header := ("x-aws-ec2-metadata-token"%string, token) |}.

(** The outcome of a provider operation: the requests it made, in order, and
    the provider afterwards. *)
Record outcome := {
  sent : list http_request;
  final : instance_profile_credentials_provider
}.

(** [update_credentials]: PUT the token, GET the role, GET the credentials.
    [token] and [role] start empty and are assigned by the reply handlers; an
    exception thrown by [parse_creds] inside the third reply handler is caught
    by the retrying client and, when the request is given up, handed to the
    empty error handler: what [parse_creds] assigned before throwing stays. *)
Definition update_credentials (svc : metadata_service) (now : Z)
    (p : instance_profile_credentials_provider) : outcome :=
  let token := match token_reply svc with
               | Replied t => t
               | Failed => ""%string
               end in
  let role := match role_reply svc token with
              | Replied r => r
              | Failed => ""%string
              end in
  {| sent := [token_request; role_request token; credentials_request token role];
     final := parse_replies now p (credentials_reply svc token role) |}.

(** [reload]: the guard is written [!is_time_to_refresh() || !creds]. *)
Definition reload (svc : metadata_service) (now : Z)
    (p : instance_profile_credentials_provider) : outcome :=
  if negb (is_time_to_refresh now p) || negb (has_credentials (creds p))
  then update_credentials svc now p
  else {| sent := []; final := p |}.

Definition get_aws_credentials (svc : metadata_service) (now : Z)
    (p : instance_profile_credentials_provider)
    : list http_request * aws_credentials :=
  let o := reload svc now p in
  (sent o, creds (final o)).

(** Whether an operation performed the metadata fetch. *)
Definition fetched (o : outcome) : bool :=
  match sent o with
  | [] => false
  | _ :: _ => true
  end.

(** A well-behaved service and a provider holding unexpired credentials, used
    to evaluate [reload] on concrete states. *)
Definition sample_service : metadata_service :=
  {| token_reply := Replied "tok"%string;
     role_reply := fun _ => Replied "role"%string;
     credentials_reply := fun _ _ => [Document "AKIA" "secret" "session"] |}.

Definition sample_provider (expiry : Z) : instance_profile_credentials_provider :=
  {| ec2_metadata_ip := "169.254.169.254"; port := 80;
     creds := {| access_key_id := "AKIA"; secret_access_key := "secret";
                 session_token := "session"; expires_at := expiry |} |}.

(** A caller reloading at successive times: the requests sent over all the
    calls, in order, and the provider in the end. *)
Fixpoint reload_sequence (svc : metadata_service) (times : list Z)
    (p : instance_profile_credentials_provider)
    : list http_request * instance_profile_credentials_provider :=
  match times with
  | [] => ([], p)
  | t :: rest =>
      let o := reload svc t p in
      let r := reload_sequence svc rest (final o) in
      (sent o ++ r.1, r.2)
  end.


(** A service whose third reply is cut short: the first body has the access
    key id only, the second is no JSON at all. *)
Definition truncating_service : metadata_service :=
  {| token_reply := Replied "tok"%string;
     role_reply := fun _ => Replied "role"%string;
     credentials_reply := fun _ _ =>
       [Object [("AccessKeyId"%string, JString "NEWKEY")];
        ParseError "Invalid value." 0] |}.


End Credentials.

(** * Alternator consumed-capacity accounting *)

Module ConsumedCapacity.

(** [uint64_t] arithmetic wraps modulo 2^64. *)
Definition wrap64 (z : Z) : Z := z mod 2 ^ 64.

(** A C++ [double] is an IEEE 754 binary64 number: 53 bits of precision,
    infinities at exponent 1024, operations rounded to nearest even. *)
Definition double := spec_float.

(** Conversion of a [uint64_t] to [double]. *)
Definition uint64_to_double (z : Z) : double := binary_normalize 53 1024 z 0 false.

Definition double_mul (x y : double) : double := SFmul 53 1024 x y.

(** The rational number a finite [double] stands for (0 otherwise). *)
Definition double_value (f : double) : Q :=
  match f with
  | S754_finite s m e => inject_Z (if s then Zneg m else Zpos m) * (2 ^ e)%Q
  | _ => 0%Q
  end.

(** [rjson::value]. *)
#[local] Unset Elimination Schemes.
Inductive json :=
| JNull
| JBool (b : bool)
| JNumber (d : double)
| JString (s : string)
| JArray (items : list json)
| JObject (members : list (string * json)).
#[local] Set Elimination Schemes.

(** Requests and responses are JSON objects, given by their member lists. *)
Definition json_object := list (string * json).

(** Modelled from the spec: [rjson::find] (utils/rjson.hh is not among the
    sources): the value of the named field of the request, or a null pointer
    when the field is absent. *)
Fixpoint rjson_find (obj : json_object) (name : string) : option json :=
  match obj with
  | [] => None
  | (k, v) :: rest => if String.eqb k name then Some v else rjson_find rest name
  end.

(** Modelled from the spec: [rjson::add] (utils/rjson.hh is not among the
    sources): the object gains the named member. *)
Definition rjson_add (obj : json_object) (name : string) (v : json) : json_object :=
  obj ++ [(name, v)].

Inductive api_error :=
| validation (msg : string).

(** 0.5 as a [double]: 2^52 * 2^-53. *)
Definition INTERNAL_UNIT_MULTIPLIER : double :=
  S754_finite false 4503599627370496 (-53).
Definition KB : Z := 1024.
Definition RCU_BLOCK_SIZE_LENGTH : Z := 4 * KB.
Definition WCU_BLOCK_SIZE_LENGTH : Z := 1 * KB.

(** [GetString()] hands out the characters of a JSON string as a
    NUL-terminated C string, and [std::string consumed = ...] copies them up
    to the first NUL: a value holding an escaped NUL character is cut there. *)
Fixpoint c_string (s : string) : string :=
  match s with
  | EmptyString => EmptyString
  | String a rest =>
      if Ascii.eqb a Ascii.zero then EmptyString else String a (c_string rest)
  end.

Definition should_add_capacity (request : json_object) : result api_error bool :=
  match rjson_find request "ReturnConsumedCapacity" with
  | None => Ok false
  | Some (JString value) =>
      let consumed := c_string value in
      if String.eqb consumed "INDEXES"
      then Err (validation "INDEXES consumed capacity is not supported")
      else Ok (String.eqb consumed "TOTAL")
  | Some _ => Err (validation "Non-string ReturnConsumedCapacity field in request")
  end.

Definition calculate_internal_units (unit_block_size total_bytes : Z)
    (is_quorum : bool) : Z :=
  let internal_units :=
    wrap64 (wrap64 (total_bytes + unit_block_size) - 1) / unit_block_size in
  if is_quorum then wrap64 (internal_units * 2) else internal_units.

(** 0.5 and 1.0 as [double]s. *)
Definition double_0_5 : double := S754_finite false 4503599627370496 (-53).
Definition double_1_0 : double := S754_finite false 4503599627370496 (-52).

(** The two counters derived from [consumed_capacity_counter]. *)
Inductive counter_kind :=
| rcu (_is_quorum : bool)
| wcu.

Record consumed_capacity_counter := {
  kind : counter_kind;
  _should_add_to_reponse : bool;
  _total_bytes : Z
}.

Definition rcu_consumed_capacity_counter (request : json_object) (is_quorum : bool)
    : result api_error consumed_capacity_counter :=
  let? add := should_add_capacity request in
  Ok {| kind := rcu is_quorum; _should_add_to_reponse := add; _total_bytes := 0 |}.

Definition wcu_consumed_capacity_counter (request : json_object)
    : result api_error consumed_capacity_counter :=
  let? add := should_add_capacity request in
  Ok {| kind := wcu; _should_add_to_reponse := add; _total_bytes := 0 |}.

Definition get_internal_units (c : consumed_capacity_counter) : Z :=
  match kind c with
  | rcu is_quorum =>
      calculate_internal_units RCU_BLOCK_SIZE_LENGTH (_total_bytes c) is_quorum
  | wcu => calculate_internal_units WCU_BLOCK_SIZE_LENGTH (_total_bytes c) true
  end.

(** [operator +=]. *)
Definition add_bytes (c : consumed_capacity_counter) (units : Z)
    : consumed_capacity_counter :=
  {| kind := kind c;
     _should_add_to_reponse := _should_add_to_reponse c;
     _total_bytes := wrap64 (_total_bytes c + units) |}.

Definition get_consumed_capacity_units (c : consumed_capacity_counter) : double :=
  double_mul (uint64_to_double (get_internal_units c)) INTERNAL_UNIT_MULTIPLIER.

Definition add_consumed_capacity_to_response_if_needed
    (c : consumed_capacity_counter) (response : json_object) : json_object :=
  if _should_add_to_reponse c then
    let consumption :=
      rjson_add [] "CapacityUnits" (JNumber (get_consumed_capacity_units c)) in
    rjson_add response "ConsumedCapacity" (JObject consumption)
  else response.

(** The text TOTAL followed by a NUL character and the letter x, as the JSON
    string with the escape for U+0000 after TOTAL parses. *)
Definition total_nul_x : string := "TOTAL" ++ String Ascii.zero "x".

(** The rounded-up quotient the rounding rule speaks of. *)
Definition ceil_div (a b : Z) : Z := - ((- a) / b).

End ConsumedCapacity.

(** * Retryable HTTP client *)

Module RetryableHttp.

(** [uint32_t] arithmetic wraps modulo 2^32. *)
Definition wrap32 (z : Z) : Z := z mod 2 ^ 32.

(** [aws_error_type]: the two values the client names, and the rest of the
    enumeration by its code. *)
Inductive aws_error_type :=
| OK
| UNKNOWN
| OTHER_ERROR (code : Z).

Inductive retryable := retryable_yes | retryable_no.

Record aws_error := {
  error_type : aws_error_type;
  error_message : string;
  is_retryable : retryable
}.

(** The exceptions [do_retryable_request] tells apart in its catch clauses. *)
Inductive exception :=
| aws_exception (err : aws_error)
| system_error (code : Z)
| abort_requested_exception
| other_exception (what : string).

(** [retry_strategy]: attempt counts are [unsigned]. *)
Record retry_strategy := {
  should_retry : aws_error -> Z -> bool;
  delay_before_retry : aws_error -> Z -> Z
}.

(** What a request leaves behind: the number of [http.make_request] calls, the
    delays slept, in order, and the exceptions given to [_error_handler]. *)
Record effects := {
  attempts : nat;
  sleeps : list Z;
  handled : list exception
}.

Definition no_effects : effects := {| attempts := 0; sleeps := []; handled := [] |}.

Section Client.

(** [aws_error::from_system_error] is declared in aws_error.hh, which is not
    among the sources. *)
Variable from_system_error : Z -> aws_error.

(** The underlying [http::experimental::client]: the outcome of its k-th
    [make_request] call (k counted from 0), reply handler included. *)
Variable http : nat -> result exception unit.

Variable _retry_strategy : retry_strategy.

(** The injected error handler; being arbitrary code it may itself throw. *)
Variable _error_handler : exception -> result exception unit.

(** The catch clauses: the [aws_exception] kept in [request_ex]. *)
Definition request_ex_of (ex : exception) : aws_error :=
  match ex with
  | aws_exception err => err
  | system_error code => from_system_error code
  | abort_requested_exception =>
      {| error_type := UNKNOWN; error_message := "abort requested";
         is_retryable := retryable_no |}
  | other_exception what =>
      {| error_type := UNKNOWN; error_message := what;
         is_retryable := retryable_no |}
  end.

(** How the [while (true)] loop is left. *)
Inductive loop_exit :=
| Returned
| Broke (e : exception).

(** The retry loop, by the number of iterations it may still take; [None]
    when they do not suffice. *)
Fixpoint retry_loop (fuel : nat) (retries : Z) (w : effects)
    : option (loop_exit * effects) :=
  match fuel with
  | O => None
  | S fuel' =>
      let w1 := {| attempts := S (attempts w); sleeps := sleeps w;
                   handled := handled w |} in
      match http (attempts w) with
      | Ok _ => Some (Returned, w1)
      | Err ex =>
          let request_ex := request_ex_of ex in
          if negb (should_retry _retry_strategy request_ex retries)
          then Some (Broke ex, w1)
          else
            let d := delay_before_retry _retry_strategy request_ex retries in
            retry_loop fuel' (wrap32 (retries + 1))
              {| attempts := attempts w1; sleeps := sleeps w1 ++ [d];
                 handled := handled w1 |}
      end
  end.

(** [do_retryable_request]; [as] is the optional abort source, given by
    whether abort was requested. *)
Definition do_retryable_request (fuel : nat) (as_ : option bool)
    : option (result exception unit * effects) :=
  match as_ with
  | Some true => Some (Err abort_requested_exception, no_effects)
  | _ =>
      match retry_loop fuel 0 no_effects with
      | None => None
      | Some (Returned, w) => Some (Ok tt, w)
      | Some (Broke e, w) =>
          Some (_error_handler e,
                {| attempts := attempts w; sleeps := sleeps w;
                   handled := handled w ++ [e] |})
      end
  end.

End Client.

(** A strategy allowing exactly [n] retries with a constant delay, a client
    that always answers 503, and a handler that only takes note. *)
Definition limited_strategy (n : Z) : retry_strategy :=
  {| should_retry := fun err attempted =>
       match is_retryable err with
       | retryable_yes => attempted <? n
       | retryable_no => false
       end;
     delay_before_retry := fun _ _ => 100 |}.

Definition service_unavailable : aws_error :=
  {| error_type := OTHER_ERROR 503; error_message := "Service Unavailable";
     is_retryable := retryable_yes |}.

Definition always_unavailable (k : nat) : result exception unit :=
  Err (aws_exception service_unavailable).

Definition noting_handler (e : exception) : result exception unit := Ok tt.

(** A handler that throws what it is given, as [std::rethrow_exception]. *)
Definition rethrowing_handler (e : exception) : result exception unit := Err e.

Definition plain_from_system_error (code : Z) : aws_error :=
  {| error_type := OTHER_ERROR code; error_message := "system error";
     is_retryable := retryable_no |}.

(** ** [make_request] *)

(** [http::reply::status_class]. *)
Inductive status_class :=
| informational
| success
| redirection
| client_error
| server_error
| unclassified.

(** An [http::reply], by its status code. *)
Record reply := {
  _status : Z
}.

(** What a caller gives to handle a reply: the reply and its body. *)
Definition reply_handler : Type := reply -> string -> result exception unit.

(** [http::reply::status_type::ok]. *)
Definition status_ok : Z := 200.

Section MakeRequest.

Variable from_system_error : Z -> aws_error.

(** Of seastar and of aws_error.hh, neither among the sources:
    [http::reply::classify_status], [aws_error::parse],
    [aws_error::from_http_code] and the exception
    [httpd::unexpected_status_error]. *)
Variable classify_status : Z -> status_class.
Variable aws_error_parse : string -> option aws_error.
Variable from_http_code : Z -> aws_error.
Variable unexpected_status_error : Z -> exception.

(** The connection: the reply and body the k-th attempt receives, or the
    exception it ends with before any reply. *)
Variable transport : nat -> result exception (reply * string).

Variable _retry_strategy : retry_strategy.
Variable _error_handler : exception -> result exception unit.

(** The reply handler [make_request] wraps around the caller's. *)
Definition make_request_handler (handle : reply_handler) (expected : option Z)
    : reply_handler :=
  fun rep payload =>
    let expected := default status_ok expected in
    match classify_status (_status rep) with
    | informational | success =>
        if bool_decide (_status rep = expected) then handle rep payload
        else Err (unexpected_status_error (_status rep))
    | _ =>
        match aws_error_parse payload with
        | Some possible_error => Err (aws_exception possible_error)
        | None => Err (aws_exception (from_http_code (_status rep)))
        end
    end.

(** [http.make_request(req, handler, ...)]: the handler runs on the reply the
    connection delivers. *)
Definition http_make_request (handler : reply_handler) (k : nat)
    : result exception unit :=
  match transport k with
  | Ok (rep, payload) => handler rep payload
  | Err e => Err e
  end.

Definition make_request (fuel : nat) (handle : reply_handler)
    (expected : option Z) (as_ : option bool)
    : option (result exception unit * effects) :=
  do_retryable_request from_system_error
    (http_make_request (make_request_handler handle expected))
    _retry_strategy _error_handler fuel as_.

(** The overload without a handler skips the body. *)
Definition make_request_skipping_body (fuel : nat) (expected : option Z)
    (as_ : option bool) : option (result exception unit * effects) :=
  make_request fuel (fun _ _ => Ok tt) expected as_.

End MakeRequest.

(** Classification of a status code by its hundreds. *)
Definition classify_by_hundreds (status : Z) : status_class :=
  match status / 100 with
  | 1 => informational
  | 2 => success
  | 3 => redirection
  | 4 => client_error
  | 5 => server_error
  | _ => unclassified
  end.

(** A connection that answers 204 with an empty body, then 200. *)
Definition no_content_then_ok (k : nat) : result exception (reply * string) :=
  match k with
  | O => Ok ({| _status := 204 |}, ""%string)
  | _ => Ok ({| _status := 200 |}, "body"%string)
  end.

(** The delays slept before the retries that follow the failures [fails i]
    for [i] from [a] on, [k] of them: [delay_before_retry] of each error with
    the count of retries made so far. *)
Definition retry_delays (from_system_error : Z -> aws_error)
    (strategy : retry_strategy) (fails : nat -> exception) (a k : nat) : list Z :=
  map (fun i => delay_before_retry strategy
                  (request_ex_of from_system_error (fails i)) (Z.of_nat i))
      (seq a k).

(** A client that fails twice with a retryable error and then succeeds. *)
Definition unavailable_twice (k : nat) : result exception unit :=
  if (k <? 2)%nat then Err (aws_exception service_unavailable) else Ok tt.

(** A strategy that always retries. *)
Definition tireless_strategy : retry_strategy :=
  {| should_retry := fun _ _ => true; delay_before_retry := fun _ _ => 1 |}.

End RetryableHttp.

(** * CQL selection and result-set builder *)

Module Selection.

(** [managed_bytes_opt]: an optional byte string, bytes being 0..255. *)
Definition bytes := list Z.
Definition managed_bytes_opt := option bytes.
Definition row := list managed_bytes_opt.

(** A [const column_definition*]: columns are compared by address. *)
Definition column_definition_ptr := positive.

(** Conversion to [int32_t] keeps the low 32 bits, read as two's complement. *)
Definition to_int32 (z : Z) : Z := (z + 2 ^ 31) mod 2 ^ 32 - 2 ^ 31.

Inductive error :=
| internal_error (msg : string)
| undefined_behaviour.

(** What a selector reads from the builder when a row is added: the current
    row with the timestamps and TTLs collected for it. *)
Record input_row := {
  input_cells : row;
  input_timestamps : list Z;
  input_ttls : list Z
}.

(** The abstract class [selector] (selector.hh is not among the sources): an
    object of a selector class is its state, the methods are the instance. *)
Class Selector (S : Type) := {
  add_input : S -> input_row -> S;
  get_output : S -> managed_bytes_opt;
  reset : S -> S
}.

(** [std::find] over a vector: the distance from [begin()] to the first
    element equal to [x], or to [end()] when there is none. *)
Fixpoint std_find (l : list column_definition_ptr) (x : column_definition_ptr)
    : nat :=
  match l with
  | [] => O
  | c :: rest => if decide (c = x) then O else S (std_find rest x)
  end.

Section Builder.

Context {S : Type} `{Selector S}.

(** [selector_factories], reduced to what the builder asks of it. *)
Record selector_factories := {
  does_aggregation : bool;
  new_instances : list S
}.

Inductive selection_kind :=
| simple_selection (_is_wildcard : bool)
| selection_with_processing (_factories : selector_factories).

Record selection := {
  _columns : list column_definition_ptr;
  _collect_timestamps : bool;
  _collect_TTLs : bool;
  selection_class : selection_kind
}.

Definition index_of (s : selection) (def : column_definition_ptr) : Z :=
  let i := std_find (_columns s) def in
  if (i =? length (_columns s))%nat then -1 else to_int32 (Z.of_nat i).

Definition has_column (s : selection) (def : column_definition_ptr) : bool :=
  negb (std_find (_columns s) def =? length (_columns s))%nat.

(** The two [selectors] classes. *)
Inductive selectors :=
| simple_selectors
| selectors_with_processing (aggregates : bool) (_selectors : list S).

Definition new_selectors (s : selection) : selectors :=
  match selection_class s with
  | simple_selection _ => simple_selectors
  | selection_with_processing f =>
      selectors_with_processing (does_aggregation f) (new_instances f)
  end.

Definition is_aggregate (sel : selectors) : bool :=
  match sel with
  | simple_selectors => false
  | selectors_with_processing aggregates _ => aggregates
  end.

Definition selectors_reset (sel : selectors) : result error selectors :=
  match sel with
  | simple_selectors =>
      Err (internal_error
             "simple_selectors::reset() called, but we don't support aggregation")
  | selectors_with_processing a l => Ok (selectors_with_processing a (map reset l))
  end.

Definition get_output_row (sel : selectors) : result error row :=
  match sel with
  | simple_selectors =>
      Err (internal_error
             "simple_selectors::get_output_row() called, but we don't support aggregation")
  | selectors_with_processing _ l => Ok (map get_output l)
  end.

Definition add_input_row (sel : selectors) (rs : input_row) : result error selectors :=
  match sel with
  | simple_selectors =>
      Err (internal_error
             "simple_selectors::add_input_row() called, but we don't support aggregation")
  | selectors_with_processing a l =>
      Ok (selectors_with_processing a (map (fun s => add_input s rs) l))
  end.

Record result_set_builder := {
  _result_set : list row;
  builder_selectors : selectors;
  _group_by_cell_indices : list nat;
  _last_group : list managed_bytes_opt;
  _group_began : bool;
  current : option row;
  _timestamps : list Z;
  _ttls : list Z;
  _now : Z
}.

(** The constructor. *)
Definition make_result_set_builder (s : selection) (now : Z)
    (group_by_cell_indices : list nat) : result_set_builder :=
  {| _result_set := [];
     builder_selectors := new_selectors s;
     _group_by_cell_indices := group_by_cell_indices;
     _last_group := replicate (length group_by_cell_indices) None;
     _group_began := false;
     current := None;
     _timestamps := if _collect_timestamps s
                    then replicate (length (_columns s)) 0 else [];
     _ttls := if _collect_TTLs s
              then replicate (length (_columns s)) 0 else [];
     _now := now |}.

Definition with_result_set (b : result_set_builder) (rows : list row)
    : result_set_builder :=
  {| _result_set := rows; builder_selectors := builder_selectors b;
     _group_by_cell_indices := _group_by_cell_indices b;
     _last_group := _last_group b; _group_began := _group_began b;
     current := current b; _timestamps := _timestamps b; _ttls := _ttls b;
     _now := _now b |}.

Definition with_selectors (b : result_set_builder) (sel : selectors)
    : result_set_builder :=
  {| _result_set := _result_set b; builder_selectors := sel;
     _group_by_cell_indices := _group_by_cell_indices b;
     _last_group := _last_group b; _group_began := _group_began b;
     current := current b; _timestamps := _timestamps b; _ttls := _ttls b;
     _now := _now b |}.

Definition with_current (b : result_set_builder) (c : option row)
    : result_set_builder :=
  {| _result_set := _result_set b; builder_selectors := builder_selectors b;
     _group_by_cell_indices := _group_by_cell_indices b;
     _last_group := _last_group b; _group_began := _group_began b;
     current := c; _timestamps := _timestamps b; _ttls := _ttls b;
     _now := _now b |}.

Definition add_row (b : result_set_builder) (r : row) : result_set_builder :=
  with_result_set b (_result_set b ++ [r]).

(** The cell of the current row at each group-by index; reading outside the row, or a
    disengaged [current], is undefined in C++. *)
Definition group_cells (b : result_set_builder) : result error (list managed_bytes_opt) :=
  match current b with
  | None => Err undefined_behaviour
  | Some cur =>
      match mapM (fun i => cur !! i) (_group_by_cell_indices b) with
      | Some cells => Ok cells
      | None => Err undefined_behaviour
      end
  end.

Definition update_last_group (b : result_set_builder) : result error result_set_builder :=
  let? cells := group_cells b in
  Ok {| _result_set := _result_set b; builder_selectors := builder_selectors b;
        _group_by_cell_indices := _group_by_cell_indices b;
        _last_group := cells; _group_began := true;
        current := current b; _timestamps := _timestamps b; _ttls := _ttls b;
        _now := _now b |}.

Definition last_group_ended (b : result_set_builder) : result error bool :=
  if negb (_group_began b) then Ok false
  else match _last_group b with
       | [] => Ok (negb (is_aggregate (builder_selectors b)))
       | _ :: _ =>
           let? cells := group_cells b in
           Ok (negb (bool_decide (rev (_last_group b) = rev cells)))
       end.

Definition flush_selectors (b : result_set_builder) : result error result_set_builder :=
  if negb (is_aggregate (builder_selectors b)) then Ok b
  else
    let? out := get_output_row (builder_selectors b) in
    let? sel := selectors_reset (builder_selectors b) in
    Ok (with_selectors (add_row b out) sel).

Definition builder_input (b : result_set_builder) (cur : row) : input_row :=
  {| input_cells := cur; input_timestamps := _timestamps b; input_ttls := _ttls b |}.

(** [selectors::transform_input_row] and its override in [simple_selectors],
    which moves the current row out and leaves it empty. *)
Definition transform_input_row (b : result_set_builder) (cur : row)
    : result error (row * result_set_builder) :=
  match builder_selectors b with
  | simple_selectors => Ok (cur, with_current b (Some []))
  | sel =>
      let? sel1 := add_input_row sel (builder_input b cur) in
      let? out := get_output_row sel1 in
      let? sel2 := selectors_reset sel1 in
      Ok (out, with_selectors b sel2)
  end.

Definition process_current_row (b : result_set_builder) (more_rows_coming : bool)
    : result error result_set_builder :=
  match current b with
  | None => Ok b
  | Some cur =>
      if negb (is_aggregate (builder_selectors b)) then
        let? rb := transform_input_row b cur in
        Ok (add_row (snd rb) (fst rb))
      else
        let? ended := last_group_ended b in
        let? b1 := if ended then flush_selectors b else Ok b in
        let? b2 := update_last_group b1 in
        let? sel := add_input_row (builder_selectors b2) (builder_input b2 cur) in
        let b3 := with_selectors b2 sel in
        if more_rows_coming then Ok (with_current b3 (Some []))
        else flush_selectors b3
  end.

Definition new_row (b : result_set_builder) : result error result_set_builder :=
  let? b1 := process_current_row b true in
  Ok (with_current b1 (Some [])).

(** [build] returns the result set, given here by its rows. *)
Definition build (b : result_set_builder) : result error (list row) :=
  let? b1 := process_current_row b false in
  if bool_decide (_result_set b1 = []) && is_aggregate (builder_selectors b1)
     && bool_decide (_group_by_cell_indices b1 = [])
  then
    let? out := get_output_row (builder_selectors b1) in
    Ok (_result_set (add_row b1 out))
  else Ok (_result_set b1).

End Builder.

(** ** Adding columns and rows *)

Section Rows.

Context {S : Type} `{Selector S}.

(** [selection::add_column_for_post_processing], on the column list: the
    column is pushed back and the [uint32_t] returned is [_columns.size() - 1].
    (The result metadata, not among the sources, gains the column's
    specification alongside.) *)
Definition add_column_for_post_processing (s : selection (S := S))
    (c : column_definition_ptr) : Z * selection (S := S) :=
  let s' := {| _columns := _columns s ++ [c];
               _collect_timestamps := _collect_timestamps s;
               _collect_TTLs := _collect_TTLs s;
               selection_class := selection_class s |} in
  ((Z.of_nat (length (_columns s')) - 1) mod 2 ^ 32, s').

(** [result_set_builder::add(bytes_opt)]: [current->emplace_back(value)];
    dereferencing a disengaged [current] is undefined. *)
Definition add (b : result_set_builder (S := S)) (value : managed_bytes_opt)
    : result error (result_set_builder (S := S)) :=
  match current b with
  | None => Err undefined_behaviour
  | Some cur => Ok (with_current b (Some (cur ++ [value])))
  end.

(** A caller that hands over rows the way the builder expects them:
    [new_row()], then [add] for each cell of the row, for every row in turn,
    and [build()] at the end. *)
Fixpoint add_cells (b : result_set_builder (S := S)) (cells : row)
    : result error (result_set_builder (S := S)) :=
  match cells with
  | [] => Ok b
  | value :: rest => let? b1 := add b value in add_cells b1 rest
  end.

Definition feed_row (b : result_set_builder (S := S)) (r : row)
    : result error (result_set_builder (S := S)) :=
  let? b1 := new_row b in add_cells b1 r.

Fixpoint feed_rows (b : result_set_builder (S := S)) (rows : list row)
    : result error (result_set_builder (S := S)) :=
  match rows with
  | [] => Ok b
  | r :: rest => let? b1 := feed_row b r in feed_rows b1 rest
  end.

Definition select_rows (s : selection (S := S)) (now : Z)
    (group_by_cell_indices : list nat) (rows : list row)
    : result error (list row) :=
  let? b := feed_rows (make_result_set_builder s now group_by_cell_indices) rows in
  build b.

(** The cells a row is grouped by. *)
Definition row_key (group_by_cell_indices : list nat) (r : row)
    : option (list managed_bytes_opt) :=
  mapM (fun i => r !! i) group_by_cell_indices.

(** The number of places in a list where an element differs from the one
    before it. *)
Fixpoint changes {A : Type} `{EqDecision A} (l : list A) : nat :=
  match l with
  | x :: (y :: _) as rest =>
      ((if decide (x = y) then 0 else 1) + changes rest)%nat
  | _ => 0%nat
  end.

End Rows.

(** ** A row-counting selector

    The row-count aggregate keeps a 64-bit counter and outputs it as a [bigint]: eight
    bytes, most significant first. *)
Record count_rows := { counted : Z }.

Definition serialize_bigint (z : Z) : bytes :=
  map (fun k => (z mod 2 ^ 64 / 2 ^ (8 * k)) mod 256) [7; 6; 5; 4; 3; 2; 1; 0].

#[global] Instance count_rows_selector : Selector count_rows := {
  add_input := fun s _ => {| counted := (counted s + 1) mod 2 ^ 64 |};
  get_output := fun s => Some (serialize_bigint (counted s));
  reset := fun _ => {| counted := 0 |}
}.

Definition count_star_selection : selection (S := count_rows) :=
  {| _columns := [];
     _collect_timestamps := false;
     _collect_TTLs := false;
     selection_class :=
       selection_with_processing
         {| does_aggregation := true; new_instances := [ {| counted := 0 |} ] |} |}.

(** A simple selection of [n] copies of column 1 followed by column 2. *)
Definition padded_selection (n : nat) : selection (S := count_rows) :=
  {| _columns := replicate n 1%positive ++ [2%positive];
     _collect_timestamps := false;
     _collect_TTLs := false;
     selection_class := simple_selection false |}.

End Selection.

(** * Delegating mutation reader *)

Module DelegatingReader.

(** The operations a reader undergoes. *)
Inductive reader_call :=
| call_fill_buffer
| call_move_buffer_content_to
| call_fast_forward_to_position
| call_fast_forward_to_partition
| call_next_partition
| call_close.

#[export] Instance reader_call_eq_dec : EqDecision reader_call.
Proof. solve_decision. Defined.

(** The reader interface ([flat_mutation_reader_v2] and its [impl] base class,
    readers/flat_mutation_reader_v2.hh, are not among the sources): [R] is the
    state of an underlying reader, [F] a mutation fragment, [P] a position
    range and [Q] a partition range. The three buffer functions are the
    wrapper's own: it inherits them from [impl]. *)
Class ReaderImpl (R F P Q : Type) := {
  impl_fill_buffer : R -> R;
  impl_is_end_of_stream : R -> bool;
  impl_is_buffer_empty : R -> bool;
  impl_detach_buffer : R -> list F * R;
  impl_fast_forward_to_position : P -> R -> R;
  impl_fast_forward_to_partition : Q -> R -> R;
  impl_next_partition : R -> R;
  impl_close : R -> R;
  buffer_is_full : list F -> bool;
  buffer_forward_to : P -> list F -> list F;
  buffer_clear_to_next_partition : list F -> list F
}.

Section Reader.

Context {R F P Q : Type} `{ReaderImpl R F P Q}.

(** A [flat_mutation_reader_v2]: its implementation state, and the operations
    performed on it so far, oldest first. *)
Record flat_mutation_reader_v2 := {
  impl : R;
  performed : list reader_call
}.

Definition perform (c : reader_call) (f : R -> R) (u : flat_mutation_reader_v2)
    : flat_mutation_reader_v2 :=
  {| impl := f (impl u); performed := performed u ++ [c] |}.

Definition reader_close : flat_mutation_reader_v2 -> flat_mutation_reader_v2 :=
  perform call_close impl_close.

Definition times_closed (u : flat_mutation_reader_v2) : nat :=
  length (filter (fun c => c = call_close) (performed u)).

(** Readers owned by the caller live in the caller's memory, by address. *)
Definition address := positive.

(** [_underlying] points either into [_underlying_holder] or at a reader of
    the caller. *)
Inductive reader_ptr :=
| in_holder
| at_address (a : address).

Record delegating_reader_v2 := {
  _buffer : list F;
  _end_of_stream : bool;
  _underlying_holder : option flat_mutation_reader_v2;
  _underlying : reader_ptr
}.

(** The caller's memory together with the wrapper. *)
Definition state : Type := gmap address flat_mutation_reader_v2 * delegating_reader_v2.

(** Construction from an lvalue reference: the holder stays empty. *)
Definition delegating_reader_v2_ref (a : address) : delegating_reader_v2 :=
  {| _buffer := []; _end_of_stream := false;
     _underlying_holder := None; _underlying := at_address a |}.

(** Construction from an rvalue reference: the reader moves into the holder. *)
Definition delegating_reader_v2_move (r : flat_mutation_reader_v2)
    : delegating_reader_v2 :=
  {| _buffer := []; _end_of_stream := false;
     _underlying_holder := Some r; _underlying := in_holder |}.

(** Reading and writing through [_underlying]; a pointer to no reader is
    undefined behaviour ([None]). *)
Definition underlying (st : state) : option flat_mutation_reader_v2 :=
  match _underlying st.2 with
  | in_holder => _underlying_holder st.2
  | at_address a => st.1 !! a
  end.

Definition set_underlying (st : state) (u : flat_mutation_reader_v2) : state :=
  match _underlying st.2 with
  | in_holder =>
      (st.1, {| _buffer := _buffer st.2; _end_of_stream := _end_of_stream st.2;
                _underlying_holder := Some u; _underlying := in_holder |})
  | at_address a => (<[a := u]> st.1, st.2)
  end.

Definition set_local (st : state) (buffer : list F) (eos : bool) : state :=
  (st.1, {| _buffer := buffer; _end_of_stream := eos;
            _underlying_holder := _underlying_holder st.2;
            _underlying := _underlying st.2 |}).

Definition fill_buffer (st : state) : option state :=
  if buffer_is_full (_buffer st.2) then Some st
  else
    u ← underlying st;
    let u1 := perform call_fill_buffer impl_fill_buffer u in
    let eos := impl_is_end_of_stream (impl u1) in
    let detached := impl_detach_buffer (impl u1) in
    let u2 := perform call_move_buffer_content_to (fun _ => detached.2) u1 in
    Some (set_local (set_underlying st u2) (_buffer st.2 ++ detached.1) eos).

Definition fast_forward_to_position (pr : P) (st : state) : option state :=
  let st1 := set_local st (buffer_forward_to pr (_buffer st.2)) false in
  u ← underlying st1;
  Some (set_underlying st1
          (perform call_fast_forward_to_position
             (impl_fast_forward_to_position pr) u)).

Definition next_partition (st : state) : option state :=
  let buffer := buffer_clear_to_next_partition (_buffer st.2) in
  let st1 := set_local st buffer (_end_of_stream st.2) in
  u ← underlying st1;
  let u1 := match buffer with
            | [] => perform call_next_partition impl_next_partition u
            | _ :: _ => u
            end in
  let st2 := match buffer with
             | [] => set_underlying st1 u1
             | _ :: _ => st1
             end in
  Some (set_local st2 buffer
          (impl_is_end_of_stream (impl u1) && impl_is_buffer_empty (impl u1))).

Definition fast_forward_to_partition (pr : Q) (st : state) : option state :=
  let st1 := set_local st [] false in
  u ← underlying st1;
  Some (set_underlying st1
          (perform call_fast_forward_to_partition
             (impl_fast_forward_to_partition pr) u)).

(** [close]: [_underlying_holder ? _underlying_holder->close() : ready]. *)
Definition close (st : state) : state :=
  match _underlying_holder st.2 with
  | Some r =>
      (st.1, {| _buffer := _buffer st.2; _end_of_stream := _end_of_stream st.2;
                _underlying_holder := Some (reader_close r);
                _underlying := _underlying st.2 |})
  | None => st
  end.

(** The wrapper owns its reader: the holder is engaged and [_underlying]
    points into it; [n] counts the times the held reader was closed. *)
Definition owns (n : nat) (st : state) : Prop :=
  _underlying st.2 = in_holder /\
  exists u, _underlying_holder st.2 = Some u /\ times_closed u = n.

(** The wrapper borrows the reader at address [a]: the holder is empty. *)
Definition borrows (a : address) (st : state) : Prop :=
  _underlying st.2 = at_address a /\ _underlying_holder st.2 = None.

(** The operations a wrapper may undergo before it is closed. *)
Inductive operation :=
| do_fill_buffer
| do_fast_forward_to_position (pr : P)
| do_fast_forward_to_partition (pr : Q)
| do_next_partition.

Definition apply_operation (o : operation) (st : state) : option state :=
  match o with
  | do_fill_buffer => fill_buffer st
  | do_fast_forward_to_position pr => fast_forward_to_position pr st
  | do_fast_forward_to_partition pr => fast_forward_to_partition pr st
  | do_next_partition => next_partition st
  end.

Fixpoint apply_operations (os : list operation) (st : state) : option state :=
  match os with
  | [] => Some st
  | o :: rest => st' ← apply_operation o st; apply_operations rest st'
  end.

End Reader.

(** ** Operations of the underlying reader that fail

    The operations of the underlying reader return futures, which may be
    exceptional. [fails o r] tells whether the future the underlying reader
    returns for the operation forwarded by [o], started in state [r], is
    exceptional; the reader is then in the state its [ReaderImpl] function
    gives, which is whatever the failed operation left. A continuation
    attached with [then] does not run when the future is exceptional. Each
    function gives the state afterwards and whether the future the wrapper
    returns is exceptional; [None] remains a pointer to no reader. *)
Section FailingReader.

Context {R F P Q : Type} `{ReaderImpl R F P Q}.

Variable fails : operation (P := P) (Q := Q) -> R -> bool.

Definition fill_buffer_ex (st : state (R := R) (F := F))
    : option (state (R := R) (F := F) * bool) :=
  if buffer_is_full (_buffer st.2) then Some (st, false)
  else
    u ← underlying st;
    let u1 := perform call_fill_buffer impl_fill_buffer u in
    if fails do_fill_buffer (impl u) then Some (set_underlying st u1, true)
    else
      let eos := impl_is_end_of_stream (impl u1) in
      let detached := impl_detach_buffer (impl u1) in
      let u2 := perform call_move_buffer_content_to (fun _ => detached.2) u1 in
      Some (set_local (set_underlying st u2) (_buffer st.2 ++ detached.1) eos,
            false).

Definition fast_forward_to_position_ex (pr : P) (st : state (R := R) (F := F))
    : option (state (R := R) (F := F) * bool) :=
  let st1 := set_local st (buffer_forward_to pr (_buffer st.2)) false in
  u ← underlying st1;
  Some (set_underlying st1
          (perform call_fast_forward_to_position
             (impl_fast_forward_to_position pr) u),
        fails (do_fast_forward_to_position pr) (impl u)).

Definition next_partition_ex (st : state (R := R) (F := F))
    : option (state (R := R) (F := F) * bool) :=
  let buffer := buffer_clear_to_next_partition (_buffer st.2) in
  let st1 := set_local st buffer (_end_of_stream st.2) in
  u ← underlying st1;
  match buffer with
  | [] =>
      let u1 := perform call_next_partition impl_next_partition u in
      let st2 := set_underlying st1 u1 in
      if fails do_next_partition (impl u) then Some (st2, true)
      else
        Some (set_local st2 buffer
                (impl_is_end_of_stream (impl u1)
                 && impl_is_buffer_empty (impl u1)),
              false)
  | _ :: _ =>
      Some (set_local st1 buffer
              (impl_is_end_of_stream (impl u) && impl_is_buffer_empty (impl u)),
            false)
  end.

Definition fast_forward_to_partition_ex (pr : Q) (st : state (R := R) (F := F))
    : option (state (R := R) (F := F) * bool) :=
  let st1 := set_local st [] false in
  u ← underlying st1;
  Some (set_underlying st1
          (perform call_fast_forward_to_partition
             (impl_fast_forward_to_partition pr) u),
        fails (do_fast_forward_to_partition pr) (impl u)).

Definition apply_operation_ex (o : operation) (st : state (R := R) (F := F))
    : option (state (R := R) (F := F) * bool) :=
  match o with
  | do_fill_buffer => fill_buffer_ex st
  | do_fast_forward_to_position pr => fast_forward_to_position_ex pr st
  | do_fast_forward_to_partition pr => fast_forward_to_partition_ex pr st
  | do_next_partition => next_partition_ex st
  end.

(** A caller that goes on whether or not an operation failed: the state in
    the end and, for each operation, whether its future was exceptional. *)
Fixpoint apply_operations_ex (os : list operation)
    (st : state (R := R) (F := F))
    : option (state (R := R) (F := F) * list bool) :=
  match os with
  | [] => Some (st, [])
  | o :: rest =>
      r1 ← apply_operation_ex o st;
      r2 ← apply_operations_ex rest r1.1;
      Some (r2.1, r1.2 :: r2.2)
  end.

End FailingReader.

(** ** A reader over a list of numbers

    The implementation state is the pending input and the buffer; a fill
    buffers the next two numbers. *)
Record list_reader := {
  pending : list nat;
  buffered : list nat
}.

#[global] Instance list_reader_impl : ReaderImpl list_reader nat nat nat := {
  impl_fill_buffer := fun r =>
    {| pending := drop 2 (pending r); buffered := buffered r ++ take 2 (pending r) |};
  impl_is_end_of_stream := fun r => bool_decide (pending r = []);
  impl_is_buffer_empty := fun r => bool_decide (buffered r = []);
  impl_detach_buffer := fun r =>
    (buffered r, {| pending := pending r; buffered := [] |});
  impl_fast_forward_to_position := fun p r =>
    {| pending := filter (fun x => (p <= x)%nat) (pending r); buffered := [] |};
  impl_fast_forward_to_partition := fun p r =>
    {| pending := filter (fun x => (p <= x)%nat) (pending r); buffered := [] |};
  impl_next_partition := fun r =>
    {| pending := pending r; buffered := [] |};
  impl_close := fun r => {| pending := []; buffered := [] |};
  buffer_is_full := fun b => (4 <=? length b)%nat;
  buffer_forward_to := fun p b => filter (fun x => (p <= x)%nat) b;
  buffer_clear_to_next_partition := fun b => []
}.

Definition fresh_list_reader (input : list nat)
    : flat_mutation_reader_v2 (R := list_reader) :=
  {| impl := {| pending := input; buffered := [] |}; performed := [] |}.

(** The list reader failing whenever it is asked for the next partition, and
    at a fill with nothing pending. *)
Definition list_reader_fails (o : operation (P := nat) (Q := nat))
    (r : list_reader) : bool :=
  match o with
  | do_next_partition => true
  | do_fill_buffer => bool_decide (pending r = [])
  | _ => false
  end.

(** A caller's memory with two readers. *)
Definition two_readers
    : gmap address (flat_mutation_reader_v2 (R := list_reader)) :=
  <[1%positive := fresh_list_reader [1; 2; 3]%nat]>
    (<[2%positive := fresh_list_reader [4]%nat]> ∅).

End DelegatingReader.

(** * Properties of the voter registry *)

Section VoterRegistryFacts.
Import VoterRegistry.

Implicit Types (reg : group0_voter_registry) (nodes : node_sequence).
Implicit Types (acc : gset server_id) (c : raft_voter_client).

Lemma insert_nodes_loop_subseteq M nodes acc :
  insert_nodes_loop M nodes acc ⊆ acc ∪ list_to_set nodes.
Proof.
  revert acc. induction nodes as [|n rest IH]; intros acc; simpl.
  - set_solver.
  - case_decide; [set_solver|].
    etrans; [apply IH|]. set_solver.
Qed.

Lemma insert_nodes_loop_extends M nodes acc :
  acc ⊆ insert_nodes_loop M nodes acc.
Proof.
  revert acc. induction nodes as [|n rest IH]; intros acc; simpl; [done|].
  case_decide; [done|]. etrans; [|apply IH]. set_solver.
Qed.

Lemma size_add_node acc (n : server_id) :
  (size (acc ∪ {[n]}) <= S (size acc))%nat.
Proof.
  destruct (decide (n ∈ acc)) as [Hin|Hin].
  - replace (acc ∪ {[n]}) with acc by set_solver. lia.
  - rewrite size_union by set_solver. rewrite size_singleton. lia.
Qed.

(** The loop stops at the cap or at the end of the input, whichever comes
    first. *)
Lemma insert_nodes_loop_size M nodes acc :
  (size acc <= M)%nat ->
  size (insert_nodes_loop M nodes acc) = (M `min` size (acc ∪ list_to_set nodes))%nat.
Proof.
  revert acc. induction nodes as [|n rest IH]; intros acc Hle; simpl.
  - rewrite (right_id_L ∅ (∪)). lia.
  - assert (size acc <= size (acc ∪ ({[n]} ∪ list_to_set rest)))%nat
      by (apply subseteq_size; set_solver).
    case_decide; [lia|].
    rewrite IH.
    + by rewrite (assoc_L (∪)).
    + pose proof (size_add_node acc n). lia.
Qed.

Lemma run_single_insert reg nodes :
  voters (run reg [InsertNodes nodes] empty_client)
  = call_nodes (insert_nodes reg nodes).
Proof. unfold run, voters; simpl. unfold set_voters_status; simpl. set_solver. Qed.

Lemma insert_nodes_size reg nodes :
  NoDup nodes ->
  size (call_nodes (insert_nodes reg nodes))
  = (_max_voters reg `min` length nodes)%nat.
Proof.
  intros Hnd. unfold insert_nodes; simpl.
  rewrite insert_nodes_loop_size by (rewrite size_empty; lia).
  rewrite (left_id_L ∅ (∪)), size_list_to_set by done. done.
Qed.

End VoterRegistryFacts.

(** The cap within one call: a single [insert_nodes] call forwards, with
    status "can vote = yes", a subset of its input holding exactly
    min(maximum, input size) nodes, hence never more than the maximum; with a
    maximum of 3, one call with 4 nodes leaves exactly 3 voters. *)
Theorem insert_nodes_cap_per_call
    (reg : VoterRegistry.group0_voter_registry)
    (nodes : VoterRegistry.node_sequence) :
  NoDup nodes ->
  let call := VoterRegistry.insert_nodes reg nodes in
  VoterRegistry.call_status call = VoterRegistry.can_vote_yes /\
  VoterRegistry.call_nodes call ⊆ list_to_set nodes /\
  size (VoterRegistry.call_nodes call)
    = (VoterRegistry._max_voters reg `min` length nodes)%nat /\
  (size (VoterRegistry.call_nodes call) <= VoterRegistry._max_voters reg)%nat /\
  (VoterRegistry._max_voters reg = 3%nat -> length nodes = 4%nat ->
   size (VoterRegistry.voters
           (VoterRegistry.run reg [VoterRegistry.InsertNodes nodes]
              VoterRegistry.empty_client)) = 3%nat).
Proof.
  intros Hnd call.
  pose proof (insert_nodes_size reg nodes Hnd) as Hsize. fold call in Hsize.
  split; [done|]. split.
  { unfold call, VoterRegistry.insert_nodes; simpl.
    etrans; [apply insert_nodes_loop_subseteq|]. set_solver. }
  split; [done|]. split; [lia|].
  intros HM Hlen. rewrite run_single_insert. fold call. lia.
Qed.

Lemma insert_nodes_cap_per_call_witness :
  size (VoterRegistry.voters
          (VoterRegistry.run {| VoterRegistry._max_voters := 3 |}
             [VoterRegistry.InsertNodes [1; 2; 3; 4]%positive]
             VoterRegistry.empty_client)) = 3%nat.
Proof.
  assert (Hnd : NoDup [1; 2; 3; 4]%positive)
    by (apply (bool_decide_unpack _); vm_compute; exact I).
  destruct (insert_nodes_cap_per_call
              {| VoterRegistry._max_voters := 3 |} [1; 2; 3; 4]%positive Hnd)
    as (_ & _ & _ & _ & Hfour).
  apply Hfour; reflexivity.
Defined.

(** C1 (the code at four single-node insertions with a maximum of 3): the
    registry keeps no count of the voters it has made, so each of the four
    calls forwards its node with "can vote = yes": four distinct nodes are
    forwarded, more than the maximum, and the test's voter client ends with
    four voters. *)
Theorem voter_cap_exceeded_across_calls :
  let reg := {| VoterRegistry._max_voters := 3 |} in
  let rs := [VoterRegistry.InsertNode 1; VoterRegistry.InsertNode 2;
             VoterRegistry.InsertNode 3; VoterRegistry.InsertNode 4]%positive in
  size (VoterRegistry.forwarded_yes reg rs) = 4%nat /\
  ~ (size (VoterRegistry.forwarded_yes reg rs) <= VoterRegistry._max_voters reg)%nat /\
  size (VoterRegistry.voters (VoterRegistry.run reg rs VoterRegistry.empty_client))
  = 4%nat.
Proof.
  assert (H : size (VoterRegistry.forwarded_yes {| VoterRegistry._max_voters := 3 |}
             [VoterRegistry.InsertNode 1; VoterRegistry.InsertNode 2;
              VoterRegistry.InsertNode 3; VoterRegistry.InsertNode 4]%positive) = 4%nat)
    by (vm_compute; reflexivity).
  simpl. split; [exact H|]. split; [rewrite H; simpl; lia|].
  vm_compute. reflexivity.
Qed.

(** C2 (the code at the test's input): with a maximum of 3 and 4 nodes
    inserted in one call, removing any one of the 3 voters leaves exactly 2
    voters, all of them voters before; no excluded node takes the free
    place. *)
Theorem remove_node_leaves_two_voters
    (nodes : VoterRegistry.node_sequence) (v : VoterRegistry.server_id) :
  NoDup nodes -> length nodes = 4%nat ->
  let reg := {| VoterRegistry._max_voters := 3 |} in
  let c := VoterRegistry.run reg [VoterRegistry.InsertNodes nodes]
             VoterRegistry.empty_client in
  v ∈ VoterRegistry.voters c ->
  let c' := VoterRegistry.run reg [VoterRegistry.RemoveNode v] c in
  size (VoterRegistry.voters c') = 2%nat /\
  (v ∉ VoterRegistry.voters c') /\
  VoterRegistry.voters c' ⊆ VoterRegistry.voters c.
Proof.
  intros Hnd Hlen reg c Hv c'.
  assert (Hthree : size (VoterRegistry.voters c) = 3%nat).
  { unfold c. rewrite run_single_insert, insert_nodes_size by done.
    rewrite Hlen. reflexivity. }
  assert (Hc' : VoterRegistry.voters c' = VoterRegistry.voters c ∖ {[v]}).
  { unfold c', VoterRegistry.run, VoterRegistry.voters; simpl.
    unfold VoterRegistry.set_voters_status; simpl. set_solver. }
  rewrite Hc'. split; [|set_solver].
  rewrite size_difference by set_solver. rewrite size_singleton. lia.
Qed.

Lemma remove_node_leaves_two_voters_witness :
  size (VoterRegistry.voters
          (VoterRegistry.run {| VoterRegistry._max_voters := 3 |}
             [VoterRegistry.RemoveNode 1%positive]
             (VoterRegistry.run {| VoterRegistry._max_voters := 3 |}
                [VoterRegistry.InsertNodes [1; 2; 3; 4]%positive]
                VoterRegistry.empty_client))) = 2%nat.
Proof.
  assert (Hnd : NoDup [1; 2; 3; 4]%positive)
    by (apply (bool_decide_unpack _); vm_compute; exact I).
  assert (Hv : 1%positive ∈ VoterRegistry.voters
            (VoterRegistry.run {| VoterRegistry._max_voters := 3 |}
               [VoterRegistry.InsertNodes [1; 2; 3; 4]%positive]
               VoterRegistry.empty_client))
    by (apply (bool_decide_unpack _); vm_compute; exact I).
  exact (proj1 (remove_node_leaves_two_voters [1; 2; 3; 4]%positive 1%positive
                  Hnd eq_refl Hv)).
Defined.

(** * Properties of the instance-profile credentials provider *)

(** What [reload] does: it fetches exactly when refresh is not yet due or no
    credentials are held. *)
Lemma reload_fetches_iff
    (svc : Credentials.metadata_service) (now : Z)
    (p : Credentials.instance_profile_credentials_provider) :
  Credentials.fetched (Credentials.reload svc now p)
  = (negb (Credentials.is_time_to_refresh now p)
     || negb (Credentials.has_credentials (Credentials.creds p))).
Proof.
  unfold Credentials.reload.
  destruct (negb (Credentials.is_time_to_refresh now p)
            || negb (Credentials.has_credentials (Credentials.creds p)));
    reflexivity.
Qed.

(** C3 (the code at two states holding credentials that expire at time
    1000): at time 500, before refresh is due, [reload] performs the whole
    three-step fetch; at time 2000, when refresh is due, it fetches nothing and
    keeps the expired credentials. *)
Theorem reload_guard_is_inverted :
  let p := Credentials.sample_provider 1000 in
  let svc := Credentials.sample_service in
  Credentials.has_credentials (Credentials.creds p) = true /\
  Credentials.is_time_to_refresh 500 p = false /\
  Credentials.sent (Credentials.reload svc 500 p)
    = [Credentials.token_request; Credentials.role_request "tok";
       Credentials.credentials_request "tok" "role"] /\
  Credentials.is_time_to_refresh 2000 p = true /\
  Credentials.sent (Credentials.reload svc 2000 p) = [] /\
  Credentials.final (Credentials.reload svc 2000 p) = p.
Proof. repeat split; reflexivity. Qed.

(** * Properties of the consumed-capacity counters *)

Section ConsumedCapacityFacts.
Import ConsumedCapacity.

Lemma ceil_div_round_up (a b : Z) :
  0 < b -> (a + b - 1) / b = ceil_div a b.
Proof.
  intros Hb. unfold ceil_div.
  pose proof (Z.div_mod (- a) b ltac:(lia)) as Hdm.
  pose proof (Z.mod_pos_bound (- a) b Hb) as Hr.
  symmetry. apply (Z.div_unique _ _ _ (b - 1 - (- a) mod b)); lia.
Qed.

Lemma ceil_div_bounds (a b : Z) :
  0 < b -> 0 <= a -> 0 <= ceil_div a b <= a.
Proof.
  intros Hb Ha. rewrite <- ceil_div_round_up by lia. split.
  - apply Z.div_pos; lia.
  - destruct (Z.eq_dec a 0) as [->|Hne].
    + rewrite Z.div_small; lia.
    + apply Z.div_le_upper_bound; nia.
Qed.

(** Below the wrap-around the block count is the rounded-up quotient. *)
Lemma calculate_internal_units_no_wrap (bs total : Z) (q : bool) :
  0 < bs -> 0 <= total <= 2 ^ 64 - bs -> 2 <= bs ->
  calculate_internal_units bs total q
  = ceil_div total bs * (if q then 2 else 1).
Proof.
  intros Hbs Ht Hbs2. unfold calculate_internal_units, wrap64.
  rewrite Zminus_mod_idemp_l.
  rewrite (Z.mod_small (total + bs - 1)) by lia.
  rewrite ceil_div_round_up by lia.
  destruct q; [|lia].
  rewrite Z.mod_small; [lia|].
  pose proof (ceil_div_bounds total bs Hbs ltac:(lia)) as Hb.
  assert (ceil_div total bs * bs < total + bs).
  { rewrite <- ceil_div_round_up by lia.
    pose proof (Z.mul_div_le (total + bs - 1) bs Hbs). lia. }
  assert (ceil_div total bs < 2 ^ 63) by nia.
  lia.
Qed.

(** ** The capacity-unit product in binary64 *)

Lemma digits2_pos_iter_xO (p k : positive) :
  digits2_pos (Pos.iter xO p k) = (digits2_pos p + k)%positive.
Proof.
  induction k as [|k IH] using Pos.peano_ind.
  - simpl. by rewrite Pos.add_1_r.
  - rewrite Pos.iter_succ. simpl. rewrite IH. by rewrite Pos.add_succ_r.
Qed.

Lemma Zpos_iter_xO (p k : positive) :
  Zpos (Pos.iter xO p k) = Zpos p * 2 ^ Zpos k.
Proof.
  induction k as [|k IH] using Pos.peano_ind.
  - simpl. lia.
  - rewrite Pos.iter_succ, Pos2Z.inj_xO, IH, Pos2Z.inj_succ, Z.pow_succ_r by lia.
    lia.
Qed.

Lemma digits2_pos_bound (p : positive) :
  2 ^ (Zpos (digits2_pos p) - 1) <= Zpos p < 2 ^ Zpos (digits2_pos p).
Proof.
  induction p as [p IH|p IH|]; simpl digits2_pos; [| |simpl; lia];
    rewrite Pos2Z.inj_succ;
    replace (Z.succ (Zpos (digits2_pos p)) - 1)
      with (Z.succ (Zpos (digits2_pos p) - 1)) by lia;
    rewrite !Z.pow_succ_r by lia; lia.
Qed.

Lemma digits2_pos_le_53 (p : positive) :
  Zpos p < 2 ^ 53 -> Zpos (digits2_pos p) <= 53.
Proof.
  intros Hp. destruct (digits2_pos_bound p) as [Hlo _].
  destruct (Z_le_gt_dec (Zpos (digits2_pos p)) 53) as [|Hgt]; [assumption|].
  exfalso.
  assert (2 ^ 53 <= 2 ^ (Zpos (digits2_pos p) - 1))
    by (apply Z.pow_le_mono_r; lia).
  lia.
Qed.

(** A 53-bit mantissa within the exponent range is left as it is by
    rounding. *)
Lemma binary_round_aux_canonical (m : positive) (e : Z) :
  digits2_pos m = 53%positive -> -1074 <= e <= 971 ->
  binary_round_aux 53 1024 false (Zpos m) e loc_Exact = S754_finite false m e.
Proof.
  intros Hd He. unfold binary_round_aux, shr_fexp.
  cbn [Zdigits2 shr_record_of_loc]. rewrite Hd.
  replace (fexp 53 1024 (53 + e) - e) with 0 by (unfold fexp, emin; lia).
  cbn [shr shr_m loc_of_shr_record round_nearest_even Zdigits2 shr_record_of_loc].
  rewrite Hd.
  replace (fexp 53 1024 (53 + e) - e) with 0 by (unfold fexp, emin; lia).
  cbn [shr shr_m].
  replace (e <=? 1024 - 53) with true by (symmetry; apply Z.leb_le; lia).
  reflexivity.
Qed.

(** Integers below 2^53 convert without rounding. *)
Lemma uint64_to_double_exact (p : positive) :
  Zpos p < 2 ^ 53 ->
  exists (m : positive) (k : Z),
    0 <= k <= 52 /\
    uint64_to_double (Zpos p) = S754_finite false m (- k) /\
    digits2_pos m = 53%positive /\
    Zpos m = Zpos p * 2 ^ k.
Proof.
  intros Hp. pose proof (digits2_pos_le_53 p Hp) as Hd.
  unfold uint64_to_double, binary_normalize, binary_round.
  replace (fexp 53 1024 (Zpos (digits2_pos p) + 0))
    with (Zpos (digits2_pos p) - 53) by (unfold fexp, emin; lia).
  unfold shl_align.
  destruct (Zpos (digits2_pos p) - 53 - 0) as [|x|x] eqn:Ex; try lia.
  - exists p, 0. split; [lia|].
    assert (Hd53 : digits2_pos p = 53%positive) by lia.
    rewrite binary_round_aux_canonical by (assumption || lia).
    repeat split; [assumption | lia].
  - exists (Pos.iter xO p x), (Zpos x).
    assert (Hdx : digits2_pos (Pos.iter xO p x) = 53%positive)
      by (rewrite digits2_pos_iter_xO; lia).
    split; [lia|].
    rewrite binary_round_aux_canonical by (assumption || lia).
    replace (Zpos (digits2_pos p) - 53) with (- Zpos x) by lia.
    repeat split; [assumption | apply Zpos_iter_xO].
Qed.

(** Multiplying by 0.5 lowers the exponent by one. *)
Lemma double_mul_half (m : positive) (e : Z) :
  digits2_pos m = 53%positive -> -52 <= e <= 0 ->
  double_mul (S754_finite false m e) INTERNAL_UNIT_MULTIPLIER
  = S754_finite false m (e - 1).
Proof.
  intros Hd He. unfold double_mul, INTERNAL_UNIT_MULTIPLIER, SFmul. cbn [xorb].
  rewrite Pos.mul_comm.
  replace (4503599627370496 * m)%positive with (Pos.iter xO m 52)
    by (cbv [Pos.iter Pos.mul]; reflexivity).
  unfold binary_round_aux, shr_fexp.
  cbn [Zdigits2 shr_record_of_loc].
  rewrite digits2_pos_iter_xO, Hd.
  replace (fexp 53 1024 (Z.pos (53 + 52) + (e + -53)) - (e + -53)) with 52
    by (unfold fexp, emin; lia).
  cbv [Pos.iter].
  cbn [shr SpecFloat.iter_pos shr_1 orb shr_m loc_of_shr_record
       round_nearest_even Zdigits2 shr_record_of_loc].
  rewrite Hd.
  replace (fexp 53 1024 (53 + (e + -53 + 52)) - (e + -53 + 52)) with 0
    by (unfold fexp, emin; lia).
  cbn [shr shr_m].
  replace (e + -53 + 52 <=? 1024 - 53) with true
    by (symmetry; apply Z.leb_le; lia).
  f_equal. lia.
Qed.

Lemma Qpower_2_cancel (k : Z) :
  0 <= k -> (inject_Z (2 ^ k) * 2 ^ (- k - 1) == 1 # 2)%Q.
Proof.
  intros Hk.
  rewrite Zpower_Qpower by assumption.
  replace (- k - 1) with (- k + -1) by lia.
  rewrite Qpower_plus by discriminate.
  rewrite Qpower_opp.
  change (inject_Z 2) with 2%Q.
  assert (Hnz : ~ (2 ^ k == 0)%Q) by (apply Qpower_not_0; discriminate).
  change (2 ^ (-1))%Q with (1 # 2)%Q.
  field. assumption.
Qed.

(** Below 2^53 internal units the reported number is exactly their half. *)
Lemma half_units_exact (u : Z) :
  0 <= u < 2 ^ 53 ->
  (double_value (double_mul (uint64_to_double u) INTERNAL_UNIT_MULTIPLIER)
   == inject_Z u * (1 # 2))%Q.
Proof.
  intros Hu. destruct u as [|p|p]; [reflexivity| |lia].
  destruct (uint64_to_double_exact p) as (m & k & Hk & Hconv & Hd & Hm); [lia|].
  rewrite Hconv, double_mul_half by (assumption || lia).
  unfold double_value. rewrite Hm, inject_Z_mult.
  rewrite <- Qmult_assoc. rewrite Qpower_2_cancel by lia. reflexivity.
Qed.

Lemma get_internal_units_nonneg (c : consumed_capacity_counter) :
  0 <= get_internal_units c.
Proof.
  unfold get_internal_units, calculate_internal_units, wrap64,
    RCU_BLOCK_SIZE_LENGTH, WCU_BLOCK_SIZE_LENGTH, KB.
  destruct (kind c) as [[|]|];
    try (apply Z.mod_pos_bound; lia);
    apply Z.div_pos; try lia; apply Z.mod_pos_bound; lia.
Qed.

End ConsumedCapacityFacts.

(** C4 (as amended): for every byte total B that leaves room for the
    round-up addition (B <= 2^64 - block size), internal units are
    ceil(B / 4096) for reads, doubled exactly when the read used quorum
    consistency, and ceil(B / 1024) doubled for writes; the reported capacity
    units are the double product of the internal units and 0.5, which is
    exactly half the internal units whenever these are below 2^53, as they are
    for every such read; a 4096-byte non-quorum read reports 0.5 and a
    4097-byte one reports 1.0. *)
Theorem internal_units_rounding (c : ConsumedCapacity.consumed_capacity_counter) :
  let B := ConsumedCapacity._total_bytes c in
  let units := ConsumedCapacity.get_internal_units c in
  let reported := ConsumedCapacity.get_consumed_capacity_units c in
  0 <= B ->
  (forall q, ConsumedCapacity.kind c = ConsumedCapacity.rcu q ->
     B <= 2 ^ 64 - 4096 ->
     units = ConsumedCapacity.ceil_div B 4096 * (if q then 2 else 1) /\
     (ConsumedCapacity.double_value reported == inject_Z units * (1 # 2))%Q) /\
  (ConsumedCapacity.kind c = ConsumedCapacity.wcu ->
     B <= 2 ^ 64 - 1024 ->
     units = ConsumedCapacity.ceil_div B 1024 * 2) /\
  reported
  = ConsumedCapacity.double_mul (ConsumedCapacity.uint64_to_double units)
      ConsumedCapacity.INTERNAL_UNIT_MULTIPLIER /\
  (units < 2 ^ 53 ->
     (ConsumedCapacity.double_value reported == inject_Z units * (1 # 2))%Q) /\
  (ConsumedCapacity.kind c = ConsumedCapacity.rcu false -> B = 4096 ->
     reported = ConsumedCapacity.double_0_5) /\
  (ConsumedCapacity.kind c = ConsumedCapacity.rcu false -> B = 4097 ->
     reported = ConsumedCapacity.double_1_0).
Proof.
  intros B units reported HB.
  assert (Hexact : units < 2 ^ 53 ->
            (ConsumedCapacity.double_value reported == inject_Z units * (1 # 2))%Q).
  { intros Hlt. apply half_units_exact. split; [|exact Hlt].
    apply get_internal_units_nonneg. }
  split; [|split; [|split; [|split; [|split]]]].
  - intros q Hk Hle.
    assert (Hu : units = ConsumedCapacity.ceil_div B 4096 * (if q then 2 else 1)).
    { unfold units, ConsumedCapacity.get_internal_units. rewrite Hk.
      apply calculate_internal_units_no_wrap;
        unfold ConsumedCapacity.RCU_BLOCK_SIZE_LENGTH, ConsumedCapacity.KB;
        fold B; lia. }
    split; [exact Hu|]. apply Hexact. rewrite Hu.
    assert (ConsumedCapacity.ceil_div B 4096 < 2 ^ 52).
    { rewrite <- ceil_div_round_up by lia. apply Z.div_lt_upper_bound; lia. }
    destruct q; lia.
  - intros Hk Hle. unfold units, ConsumedCapacity.get_internal_units. rewrite Hk.
    apply (calculate_internal_units_no_wrap _ _ true);
      unfold ConsumedCapacity.WCU_BLOCK_SIZE_LENGTH, ConsumedCapacity.KB; fold B; lia.
  - reflexivity.
  - exact Hexact.
  - intros Hk HB4. unfold reported, ConsumedCapacity.get_consumed_capacity_units,
      ConsumedCapacity.get_internal_units. rewrite Hk. fold B. rewrite HB4.
    reflexivity.
  - intros Hk HB4. unfold reported, ConsumedCapacity.get_consumed_capacity_units,
      ConsumedCapacity.get_internal_units. rewrite Hk. fold B. rewrite HB4.
    reflexivity.
Qed.

Lemma internal_units_rounding_witness :
  ConsumedCapacity.get_consumed_capacity_units
    {| ConsumedCapacity.kind := ConsumedCapacity.rcu false;
       ConsumedCapacity._should_add_to_reponse := true;
       ConsumedCapacity._total_bytes := 4097 |}
  = ConsumedCapacity.double_1_0.
Proof.
  refine (proj2 (proj2 (proj2 (proj2 (proj2
    (internal_units_rounding
       {| ConsumedCapacity.kind := ConsumedCapacity.rcu false;
          ConsumedCapacity._should_add_to_reponse := true;
          ConsumedCapacity._total_bytes := 4097 |} _))))) eq_refl eq_refl).
  simpl. lia.
Defined.

(** C4 (as stated) fails at the top of the 64-bit range. For a non-quorum
    read of 2^64 - 1 bytes the round-up addition wraps and the internal units
    are 0, not ceil((2^64 - 1) / 4096) = 2^52. For a write of 2^63 + 1024
    bytes the internal units are 2^54 + 2, which no double holds: the reported
    number is 2^53, not 2^53 + 1. *)
Lemma internal_units_wrap_at_top :
  let c := {| ConsumedCapacity.kind := ConsumedCapacity.rcu false;
              ConsumedCapacity._should_add_to_reponse := false;
              ConsumedCapacity._total_bytes := 2 ^ 64 - 1 |} in
  let w := {| ConsumedCapacity.kind := ConsumedCapacity.wcu;
              ConsumedCapacity._should_add_to_reponse := false;
              ConsumedCapacity._total_bytes := 2 ^ 63 + 1024 |} in
  (ConsumedCapacity.get_internal_units c = 0 /\
   ConsumedCapacity.ceil_div (ConsumedCapacity._total_bytes c) 4096 = 2 ^ 52 /\
   ConsumedCapacity.get_internal_units c
   <> ConsumedCapacity.ceil_div (ConsumedCapacity._total_bytes c) 4096) /\
  (ConsumedCapacity.get_internal_units w = 2 ^ 54 + 2 /\
   (ConsumedCapacity.double_value (ConsumedCapacity.get_consumed_capacity_units w)
    == inject_Z (2 ^ 53))%Q /\
   ~ (ConsumedCapacity.double_value (ConsumedCapacity.get_consumed_capacity_units w)
      == inject_Z (ConsumedCapacity.get_internal_units w) * (1 # 2))%Q).
Proof.
  split; [repeat split; vm_compute; congruence|].
  split; [vm_compute; reflexivity|]. split; [vm_compute; reflexivity|].
  intros Heq. vm_compute in Heq. discriminate.
Qed.

Section ReturnConsumedCapacityFacts.
Import ConsumedCapacity.

Lemma add_bytes_keeps_flag (c : consumed_capacity_counter) (bytes : list Z) :
  _should_add_to_reponse (foldl add_bytes c bytes) = _should_add_to_reponse c.
Proof.
  revert c. induction bytes as [|b rest IH]; intros c; simpl; [done|].
  by rewrite IH.
Qed.

(** The two constructors differ only in the kind of counter they build. *)
Lemma constructors_follow_should_add_capacity (request : json_object) (q : bool)
    (r : result api_error consumed_capacity_counter) :
  r ∈ [rcu_consumed_capacity_counter request q; wcu_consumed_capacity_counter request] ->
  match should_add_capacity request with
  | Ok flag => exists c, r = Ok c /\ _should_add_to_reponse c = flag
  | Err e => r = Err e
  end.
Proof.
  intros Hin. apply list_elem_of_In in Hin.
  unfold rcu_consumed_capacity_counter, wcu_consumed_capacity_counter in Hin.
  destruct (should_add_capacity request) as [flag|e]; simpl in Hin.
  - destruct Hin as [<-|[<-|[]]]; eexists; split; reflexivity.
  - destruct Hin as [<-|[<-|[]]]; reflexivity.
Qed.

Lemma should_add_capacity_true (request : json_object) :
  should_add_capacity request = Ok true <->
  exists value, rjson_find request "ReturnConsumedCapacity" = Some (JString value) /\
                c_string value = "TOTAL"%string.
Proof.
  unfold should_add_capacity.
  destruct (rjson_find request "ReturnConsumedCapacity") as [[| | |s| |]|];
    try (split; [congruence|intros (v & [=] & _)]).
  cbv zeta. destruct (String.eqb (c_string s) "INDEXES") eqn:Ei.
  - apply String.eqb_eq in Ei. split; [congruence|].
    intros (v & [= <-] & Hv). congruence.
  - split.
    + intros [= Et]. apply String.eqb_eq in Et. by exists s.
    + intros (v & [= <-] & ->). reflexivity.
Qed.

Lemma response_unchanged_without_flag (c : consumed_capacity_counter)
    (response : json_object) :
  _should_add_to_reponse c = false ->
  add_consumed_capacity_to_response_if_needed c response = response.
Proof.
  intros Hf. unfold add_consumed_capacity_to_response_if_needed. by rewrite Hf.
Qed.

(** What the gate does, by the text of the field up to its first NUL
    character: whatever bytes are accounted afterwards, an absent field or a
    text other than TOTAL and INDEXES builds a counter that leaves the
    response as it is; the text INDEXES makes construction fail with a
    validation error; the text TOTAL makes the response gain a
    ConsumedCapacity object holding the CapacityUnits number. *)
Lemma return_consumed_capacity_by_text
    (request response : json_object) (is_quorum : bool) (bytes : list Z) :
  let field := rjson_find request "ReturnConsumedCapacity" in
  let built := [rcu_consumed_capacity_counter request is_quorum;
                wcu_consumed_capacity_counter request] in
  let account c := foldl add_bytes c bytes in
  (field = None \/
   (exists value, field = Some (JString value) /\
      c_string value <> "TOTAL"%string /\ c_string value <> "INDEXES"%string) ->
   forall r, r ∈ built ->
     exists c, r = Ok c /\
       add_consumed_capacity_to_response_if_needed (account c) response = response) /\
  ((exists value, field = Some (JString value) /\ c_string value = "INDEXES"%string) ->
   forall r, r ∈ built ->
     r = Err (validation "INDEXES consumed capacity is not supported")) /\
  ((exists value, field = Some (JString value) /\ c_string value = "TOTAL"%string) ->
   forall r, r ∈ built ->
     exists c, r = Ok c /\
       add_consumed_capacity_to_response_if_needed (account c) response
       = response ++
           [("ConsumedCapacity"%string,
             JObject
               [("CapacityUnits"%string,
                 JNumber (get_consumed_capacity_units (account c)))])]).
Proof.
  intros field built account.
  split; [|split].
  - intros Hcase r Hin.
    pose proof (constructors_follow_should_add_capacity _ _ _ Hin) as Hc.
    unfold should_add_capacity in Hc. fold field in Hc.
    assert (Hflag : exists c, r = Ok c /\ _should_add_to_reponse c = false).
    { destruct Hcase as [Hnone|(v & Hv & Ht & Hi)].
      - by rewrite Hnone in Hc.
      - rewrite Hv in Hc. cbv zeta in Hc.
        replace (String.eqb (c_string v) "INDEXES") with false in Hc
          by (symmetry; by apply String.eqb_neq).
        replace (String.eqb (c_string v) "TOTAL") with false in Hc
          by (symmetry; by apply String.eqb_neq).
        exact Hc. }
    destruct Hflag as (c & -> & Hflag). exists c. split; [done|].
    apply response_unchanged_without_flag. unfold account.
    by rewrite add_bytes_keeps_flag.
  - intros (v & Hv & Hi) r Hin.
    pose proof (constructors_follow_should_add_capacity _ _ _ Hin) as Hc.
    unfold should_add_capacity in Hc. fold field in Hc.
    rewrite Hv in Hc. cbv zeta in Hc. by rewrite Hi in Hc.
  - intros Htotal r Hin.
    pose proof (constructors_follow_should_add_capacity _ _ _ Hin) as Hc.
    apply should_add_capacity_true in Htotal. rewrite Htotal in Hc.
    destruct Hc as (c & -> & Hflag). exists c. split; [done|].
    unfold add_consumed_capacity_to_response_if_needed.
    unfold account. by rewrite add_bytes_keeps_flag, Hflag.
Qed.

End ReturnConsumedCapacityFacts.

(** The gate on the three plain values: a response is left as it is for
    NONE, construction fails for INDEXES, the field is added for TOTAL. *)
Example gate_on_plain_values :
  (let? c := ConsumedCapacity.rcu_consumed_capacity_counter
               [("ReturnConsumedCapacity"%string, ConsumedCapacity.JString "NONE")]
               false in
   Ok (ConsumedCapacity.add_consumed_capacity_to_response_if_needed
         (ConsumedCapacity.add_bytes c 4096) []))
  = Ok [] /\
  ConsumedCapacity.rcu_consumed_capacity_counter
    [("ReturnConsumedCapacity"%string, ConsumedCapacity.JString "INDEXES")] false
  = Err (ConsumedCapacity.validation "INDEXES consumed capacity is not supported") /\
  (let? c := ConsumedCapacity.rcu_consumed_capacity_counter
               [("ReturnConsumedCapacity"%string, ConsumedCapacity.JString "TOTAL")]
               false in
   Ok (ConsumedCapacity.add_consumed_capacity_to_response_if_needed
         (ConsumedCapacity.add_bytes c 4096) []))
  = Ok [("ConsumedCapacity"%string,
         ConsumedCapacity.JObject
           [("CapacityUnits"%string,
             ConsumedCapacity.JNumber ConsumedCapacity.double_0_5)])].
Proof. repeat split. Qed.

(** C5 (the code at a request whose ReturnConsumedCapacity is the string made
    of TOTAL, a NUL character and x): the value is not the string TOTAL, yet
    both counters are built with reporting enabled and the response gains a
    ConsumedCapacity object with a CapacityUnits number. *)
Theorem total_before_nul_is_reported :
  let value := ConsumedCapacity.JString ConsumedCapacity.total_nul_x in
  let request := [("ReturnConsumedCapacity"%string, value)] in
  value <> ConsumedCapacity.JString "TOTAL" /\
  ConsumedCapacity.rjson_find request "ReturnConsumedCapacity" = Some value /\
  forall r,
    r ∈ [ConsumedCapacity.rcu_consumed_capacity_counter request false;
         ConsumedCapacity.wcu_consumed_capacity_counter request] ->
    exists c,
      r = Ok c /\
      ConsumedCapacity.add_consumed_capacity_to_response_if_needed c []
      = [("ConsumedCapacity"%string,
          ConsumedCapacity.JObject
            [("CapacityUnits"%string,
              ConsumedCapacity.JNumber
                (ConsumedCapacity.get_consumed_capacity_units c))])].
Proof.
  split; [discriminate|]. split; [reflexivity|].
  intros r Hin.
  destruct (return_consumed_capacity_by_text
              [("ReturnConsumedCapacity"%string,
                ConsumedCapacity.JString ConsumedCapacity.total_nul_x)]
              [] false []) as (_ & _ & Htotal).
  apply Htotal; [|exact Hin].
  eexists. split; reflexivity.
Qed.

(** C9: when the ReturnConsumedCapacity field is present but is not a JSON
    string, constructing either counter fails with the validation error
    "Non-string ReturnConsumedCapacity field in request". *)
Theorem non_string_return_consumed_capacity_rejected
    (request : ConsumedCapacity.json_object) (v : ConsumedCapacity.json)
    (is_quorum : bool) :
  ConsumedCapacity.rjson_find request "ReturnConsumedCapacity" = Some v ->
  (forall s, v <> ConsumedCapacity.JString s) ->
  ConsumedCapacity.rcu_consumed_capacity_counter request is_quorum
  = Err (ConsumedCapacity.validation
           "Non-string ReturnConsumedCapacity field in request") /\
  ConsumedCapacity.wcu_consumed_capacity_counter request
  = Err (ConsumedCapacity.validation
           "Non-string ReturnConsumedCapacity field in request").
Proof.
  intros Hfind Hns.
  unfold ConsumedCapacity.rcu_consumed_capacity_counter,
    ConsumedCapacity.wcu_consumed_capacity_counter,
    ConsumedCapacity.should_add_capacity.
  rewrite Hfind.
  destruct v as [| | |s| |]; try (split; reflexivity).
  by destruct (Hns s).
Qed.

Lemma non_string_return_consumed_capacity_rejected_witness :
  ConsumedCapacity.rcu_consumed_capacity_counter
    [("TableName"%string, ConsumedCapacity.JString "t");
     ("ReturnConsumedCapacity"%string, ConsumedCapacity.JBool true)] true
  = Err (ConsumedCapacity.validation
           "Non-string ReturnConsumedCapacity field in request").
Proof.
  refine (proj1 (non_string_return_consumed_capacity_rejected
                   [("TableName"%string, ConsumedCapacity.JString "t");
                    ("ReturnConsumedCapacity"%string, ConsumedCapacity.JBool true)]
                   (ConsumedCapacity.JBool true) true _ _)).
  - reflexivity.
  - intros s. discriminate.
Defined.

(** * Properties of the retryable HTTP client *)

Section RetryableHttpFacts.
Import RetryableHttp.

Variable from_system_error : Z -> aws_error.
Variable http : nat -> result exception unit.
Variable strategy : retry_strategy.
Variable handler : exception -> result exception unit.
Variable N : Z.

Hypothesis N_is_a_count : 0 <= N < 2 ^ 32.
Hypothesis always_fails :
  forall k, exists ex,
    http k = Err ex /\
    is_retryable (request_ex_of from_system_error ex) = retryable_yes.
Hypothesis retries_allowed :
  forall err a, is_retryable err = retryable_yes -> 0 <= a < 2 ^ 32 ->
    should_retry strategy err a = (a <? N).

(** From retry count [r], the loop makes the [N - r] retries still allowed and
    breaks on the failure that follows the last of them. *)
Lemma retry_loop_exhausts (d : nat) :
  forall (r : Z) (w : effects) (fuel : nat),
    0 <= r -> r + Z.of_nat d = N -> (d < fuel)%nat ->
    exists ex w',
      http (attempts w + d) = Err ex /\
      retry_loop from_system_error http strategy fuel r w = Some (Broke ex, w') /\
      attempts w' = S (attempts w + d) /\
      handled w' = handled w /\
      length (sleeps w') = (length (sleeps w) + d)%nat.
Proof.
  induction d as [|d IH]; intros r w fuel Hr HN Hfuel;
    (destruct fuel as [|fuel]; [lia|]); simpl;
    destruct (always_fails (attempts w)) as (ex & Hex & Hretry).
  - rewrite Nat.add_0_r, Hex.
    rewrite retries_allowed by (done || lia).
    replace (r <? N) with false by (symmetry; apply Z.ltb_ge; lia). simpl.
    eexists _, _. repeat split; simpl; lia.
  - rewrite Hex. rewrite retries_allowed by (done || lia).
    replace (r <? N) with true by (symmetry; apply Z.ltb_lt; lia). simpl.
    unfold wrap32. rewrite Z.mod_small by lia.
    edestruct (IH (r + 1)
                 {| attempts := S (attempts w);
                    sleeps := sleeps w ++
                      [delay_before_retry strategy
                         (request_ex_of from_system_error ex) r];
                    handled := handled w |} fuel)
      as (ex' & w' & H1 & H2 & H3 & H4 & H5); [lia..|].
    simpl in *. exists ex', w'.
    rewrite length_app in H5. simpl in H5.
    replace (attempts w + S d)%nat with (S (attempts w + d)) by lia.
    repeat split; (done || lia).
Qed.

End RetryableHttpFacts.

(** C6 (as amended): when no abort is requested on entry, every attempt fails
    with a retryable error and the strategy allows a retry exactly at attempt
    counts 0..N-1, the request makes exactly N+1 attempts (sleeping N times in
    between), hands the exception of the last attempt to the error handler,
    once, and ends as the handler call ends: it raises nothing itself and
    completes normally when the handler returns. Any supply of more than N
    loop iterations suffices. *)
Theorem retry_exhaustion
    (from_system_error : Z -> RetryableHttp.aws_error)
    (http : nat -> result RetryableHttp.exception unit)
    (strategy : RetryableHttp.retry_strategy)
    (handler : RetryableHttp.exception -> result RetryableHttp.exception unit)
    (N : Z) (as_ : option bool) :
  0 <= N < 2 ^ 32 ->
  as_ <> Some true ->
  (forall k, exists ex,
     http k = Err ex /\
     RetryableHttp.is_retryable (RetryableHttp.request_ex_of from_system_error ex)
     = RetryableHttp.retryable_yes) ->
  (forall err a,
     RetryableHttp.is_retryable err = RetryableHttp.retryable_yes ->
     0 <= a < 2 ^ 32 ->
     RetryableHttp.should_retry strategy err a = (a <? N)) ->
  exists ex,
    http (Z.to_nat N) = Err ex /\
    forall fuel, (Z.to_nat N < fuel)%nat ->
      exists w,
        RetryableHttp.do_retryable_request from_system_error http strategy handler
          fuel as_ = Some (handler ex, w) /\
        RetryableHttp.attempts w = (Z.to_nat N + 1)%nat /\
        RetryableHttp.handled w = [ex] /\
        length (RetryableHttp.sleeps w) = Z.to_nat N.
Proof.
  intros HN Has Hfail Hretry.
  destruct (Hfail (Z.to_nat N)) as (ex & Hex & _).
  exists ex. split; [exact Hex|].
  intros fuel Hfuel.
  destruct (retry_loop_exhausts from_system_error http strategy N HN Hfail Hretry
              (Z.to_nat N) 0 RetryableHttp.no_effects fuel)
    as (ex' & w' & H1 & H2 & H3 & H4 & H5); [lia..|].
  simpl in H1, H3, H4, H5. rewrite Hex in H1. injection H1 as <-.
  unfold RetryableHttp.do_retryable_request. rewrite H2.
  eexists. split.
  - destruct as_ as [[|]|]; [by destruct Has|reflexivity..].
  - simpl. rewrite H3, H4, H5. repeat split. lia.
Qed.

Lemma retry_exhaustion_witness :
  exists ex,
    RetryableHttp.always_unavailable (Z.to_nat 2) = Err ex /\
    forall fuel, (Z.to_nat 2 < fuel)%nat ->
      exists w,
        RetryableHttp.do_retryable_request RetryableHttp.plain_from_system_error
          RetryableHttp.always_unavailable (RetryableHttp.limited_strategy 2)
          RetryableHttp.noting_handler fuel None
        = Some (RetryableHttp.noting_handler ex, w) /\
        RetryableHttp.attempts w = (Z.to_nat 2 + 1)%nat /\
        RetryableHttp.handled w = [ex] /\
        length (RetryableHttp.sleeps w) = Z.to_nat 2.
Proof.
  apply retry_exhaustion.
  - lia.
  - discriminate.
  - intros k. eexists. split; reflexivity.
  - intros err a Hr _. unfold RetryableHttp.limited_strategy; simpl.
    rewrite Hr. reflexivity.
Defined.

(** C6 (as stated) fails in two ways for a request that would fail on every
    attempt under a strategy allowing 2 retries. With abort already requested
    on entry no attempt is made, the handler is not called and the abort
    exception goes to the caller. With a handler that rethrows, the three
    attempts are made and the exception reaches the caller through the
    handler call. *)
Lemma retry_claim_fails_on_abort_and_rethrow :
  RetryableHttp.do_retryable_request RetryableHttp.plain_from_system_error
    RetryableHttp.always_unavailable (RetryableHttp.limited_strategy 2)
    RetryableHttp.noting_handler 10 (Some true)
  = Some (Err RetryableHttp.abort_requested_exception,
          {| RetryableHttp.attempts := 0;
             RetryableHttp.sleeps := [];
             RetryableHttp.handled := [] |}) /\
  RetryableHttp.do_retryable_request RetryableHttp.plain_from_system_error
    RetryableHttp.always_unavailable (RetryableHttp.limited_strategy 2)
    RetryableHttp.rethrowing_handler 10 None
  = Some (Err (RetryableHttp.aws_exception RetryableHttp.service_unavailable),
          {| RetryableHttp.attempts := 3;
             RetryableHttp.sleeps := [100; 100];
             RetryableHttp.handled :=
               [RetryableHttp.aws_exception RetryableHttp.service_unavailable] |}).
Proof. split; reflexivity. Qed.

(** A run under a strategy allowing two retries, evaluated: three attempts,
    two sleeps, one handler call, normal completion. *)
Example three_attempts_for_two_retries :
  RetryableHttp.do_retryable_request RetryableHttp.plain_from_system_error
    RetryableHttp.always_unavailable (RetryableHttp.limited_strategy 2)
    RetryableHttp.noting_handler 10 None
  = Some (Ok tt,
          {| RetryableHttp.attempts := 3;
             RetryableHttp.sleeps := [100; 100];
             RetryableHttp.handled :=
               [RetryableHttp.aws_exception RetryableHttp.service_unavailable] |}).
Proof. reflexivity. Qed.

(** * Properties of the selection and the result-set builder *)

Section SelectionFacts.
Import Selection.

Implicit Types (l : list column_definition_ptr) (x : column_definition_ptr).

Lemma std_find_le l x : (std_find l x <= length l)%nat.
Proof. induction l as [|c l IH]; simpl; [lia|]. case_decide; lia. Qed.

Lemma std_find_lt_iff l x : (std_find l x < length l)%nat <-> x ∈ l.
Proof.
  induction l as [|c l IH]; simpl.
  - split; [lia|]. by intros ?%elem_of_nil.
  - case_decide as Hc.
    + subst c. split; [intros _; left|lia].
    + rewrite elem_of_cons, <- IH. split; [intros; right; lia|].
      intros [->|?]; [done|lia].
Qed.

Lemma std_find_lookup l x : x ∈ l -> l !! std_find l x = Some x.
Proof.
  induction l as [|c l IH]; simpl.
  - by intros ?%elem_of_nil.
  - case_decide as Hc; [by subst c|].
    intros [->|Hin]%elem_of_cons; [done|]. simpl. by apply IH.
Qed.

Lemma std_find_first l x (j : nat) :
  (j < std_find l x)%nat -> l !! j <> Some x.
Proof.
  revert j. induction l as [|c l IH]; intros j; simpl; [lia|].
  case_decide as Hc; [lia|].
  destruct j as [|j]; simpl; [congruence|].
  intros Hj. apply IH. lia.
Qed.

Lemma to_int32_small (z : Z) : 0 <= z < 2 ^ 31 -> to_int32 z = z.
Proof. intros Hz. unfold to_int32. rewrite Z.mod_small; lia. Qed.

End SelectionFacts.

(** C7: for a builder over an aggregating selection with an empty group-by
    index list, [build] straight after construction (no [new_row]) returns
    exactly one row, the selectors' output over no input. *)
Theorem build_without_rows_emits_one_row
    {S : Type} `{Selection.Selector S} (s : Selection.selection (S := S)) (now : Z) :
  Selection.is_aggregate (Selection.new_selectors s) = true ->
  exists out,
    Selection.get_output_row (Selection.new_selectors s) = Ok out /\
    Selection.build (Selection.make_result_set_builder s now []) = Ok [out].
Proof.
  intros Hagg. unfold Selection.build, Selection.make_result_set_builder,
    Selection.process_current_row; simpl.
  rewrite Hagg; simpl.
  destruct (Selection.new_selectors s) as [|agg sels]; [discriminate|].
  simpl. eexists. split; reflexivity.
Qed.

Lemma build_without_rows_emits_one_row_witness :
  exists out,
    Selection.get_output_row
      (Selection.new_selectors Selection.count_star_selection) = Ok out /\
    Selection.build
      (Selection.make_result_set_builder Selection.count_star_selection 0 [])
    = Ok [out].
Proof.
  apply build_without_rows_emits_one_row. reflexivity.
Defined.

(** Counting the rows of an empty table: one row holding the bigint 0. *)
Example count_over_no_rows :
  Selection.build
    (Selection.make_result_set_builder Selection.count_star_selection 0 [])
  = Ok [[Some [0; 0; 0; 0; 0; 0; 0; 0]]].
Proof. reflexivity. Qed.

(** C10 (as amended): for a selection of at most 2^31 columns, so that every
    position fits the [int32_t] result, [has_column] holds exactly when
    [index_of] is non-negative; [index_of] is the position of the first
    occurrence of the column among the selected columns, and -1 when the
    column is not selected. *)
Theorem index_of_has_column
    {S : Type} (s : Selection.selection (S := S))
    (def : Selection.column_definition_ptr) :
  Z.of_nat (length (Selection._columns s)) <= 2 ^ 31 ->
  (Selection.has_column s def = true <-> 0 <= Selection.index_of s def) /\
  (def ∈ Selection._columns s ->
   exists i : nat,
     Selection.index_of s def = Z.of_nat i /\
     Selection._columns s !! i = Some def /\
     forall j : nat, (j < i)%nat -> Selection._columns s !! j <> Some def) /\
  (def ∉ Selection._columns s -> Selection.index_of s def = -1).
Proof.
  intros Hlen. unfold Selection.has_column, Selection.index_of.
  pose proof (std_find_le (Selection._columns s) def) as Hle.
  pose proof (std_find_lt_iff (Selection._columns s) def) as Hiff.
  destruct (Nat.eqb_spec (Selection.std_find (Selection._columns s) def)
              (length (Selection._columns s))) as [Heq|Hne]; simpl.
  - split; [split; [discriminate|lia]|]. split; [|done].
    intros Hin. apply Hiff in Hin. lia.
  - rewrite to_int32_small by lia.
    split; [split; [lia|done]|]. split.
    + intros Hin. eexists. split; [reflexivity|]. split.
      * by apply std_find_lookup.
      * intros j. apply std_find_first.
    + intros Hnin. destruct Hnin. apply Hiff. lia.
Qed.

Lemma index_of_has_column_witness :
  Selection.has_column
    {| Selection._columns := [7; 3; 7; 9]%positive;
       Selection._collect_timestamps := false;
       Selection._collect_TTLs := false;
       Selection.selection_class :=
         Selection.simple_selection (S := Selection.count_rows) false |}
    7%positive = true
  <-> 0 <= Selection.index_of
        {| Selection._columns := [7; 3; 7; 9]%positive;
           Selection._collect_timestamps := false;
           Selection._collect_TTLs := false;
           Selection.selection_class :=
             Selection.simple_selection (S := Selection.count_rows) false |}
        7%positive.
Proof.
  refine (proj1 (index_of_has_column _ 7%positive _)).
  simpl. lia.
Defined.

(** The first occurrence counts: column 7 is selected twice, at 0 and 2. *)
Example index_of_first_occurrence :
  Selection.index_of
    {| Selection._columns := [7; 3; 7; 9]%positive;
       Selection._collect_timestamps := false;
       Selection._collect_TTLs := false;
       Selection.selection_class :=
         Selection.simple_selection (S := Selection.count_rows) false |}
    7%positive = 0 /\
  Selection.index_of
    {| Selection._columns := [7; 3; 7; 9]%positive;
       Selection._collect_timestamps := false;
       Selection._collect_TTLs := false;
       Selection.selection_class :=
         Selection.simple_selection (S := Selection.count_rows) false |}
    5%positive = -1.
Proof. split; reflexivity. Qed.

Section IndexOverflow.
Import Selection.

Lemma std_find_after_replicate (n : nat) (c x : column_definition_ptr) :
  c <> x -> std_find (replicate n c ++ [x]) x = n.
Proof.
  intros Hne. induction n as [|n IH]; simpl.
  - by rewrite decide_True.
  - rewrite decide_False by done. by rewrite IH.
Qed.

Lemma to_int32_at_2_31 : to_int32 (2 ^ 31) = - 2 ^ 31.
Proof. reflexivity. Qed.

(** A column first selected at position [n] = 2^31 is found by [has_column]
    but gets a negative [index_of]. *)
Lemma index_of_negative_beyond_int32 (n : nat) :
  Z.of_nat n = 2 ^ 31 ->
  has_column (padded_selection n) 2%positive = true /\
  index_of (padded_selection n) 2%positive = - 2 ^ 31.
Proof.
  intros Hn. unfold has_column, index_of, padded_selection, _columns.
  rewrite std_find_after_replicate by done.
  rewrite length_app, length_replicate.
  replace (n =? n + length [2%positive])%nat with false
    by (symmetry; apply Nat.eqb_neq; simpl; lia).
  split; [reflexivity|]. rewrite Hn. apply to_int32_at_2_31.
Qed.

End IndexOverflow.

(** C10 (as stated) fails for a selection of 2^31 + 1 columns whose last
    column is the only occurrence of the one asked for: [has_column] is true
    while [index_of], narrowed to [int32_t], is -2^31. *)
Lemma index_of_wraps_beyond_int32 :
  Selection.has_column (Selection.padded_selection (Z.to_nat (2 ^ 31))) 2%positive
  = true /\
  Selection.index_of (Selection.padded_selection (Z.to_nat (2 ^ 31))) 2%positive
  = - 2 ^ 31 /\
  ~ (Selection.has_column (Selection.padded_selection (Z.to_nat (2 ^ 31))) 2%positive
     = true <->
     0 <= Selection.index_of (Selection.padded_selection (Z.to_nat (2 ^ 31)))
            2%positive).
Proof.
  assert (Hn : Z.of_nat (Z.to_nat (2 ^ 31)) = 2 ^ 31) by (apply Z2Nat.id; lia).
  generalize dependent (Z.to_nat (2 ^ 31)). intros n Hn.
  destruct (index_of_negative_beyond_int32 n Hn) as [Hhas Hidx].
  split; [exact Hhas|]. split; [exact Hidx|].
  intros [Hto _]. specialize (Hto Hhas). rewrite Hidx in Hto. lia.
Qed.

(** * Properties of the delegating reader *)

Section DelegatingReaderFacts.
Import DelegatingReader.

Context {R F P Q : Type} `{ReaderImpl R F P Q}.

Implicit Types (st : state (R := R) (F := F)) (u : flat_mutation_reader_v2 (R := R)).

Lemma times_closed_perform (c : reader_call) (f : R -> R) u :
  c <> call_close -> times_closed (perform c f u) = times_closed u.
Proof.
  intros Hc. unfold times_closed, perform; simpl.
  rewrite filter_app, length_app.
  rewrite filter_cons_False by done. rewrite filter_nil. simpl. lia.
Qed.

Lemma times_closed_reader_close u :
  times_closed (reader_close u) = Datatypes.S (times_closed u).
Proof.
  unfold times_closed, reader_close, perform; simpl.
  rewrite filter_app, length_app.
  rewrite filter_cons_True by done. rewrite filter_nil. simpl. lia.
Qed.

Lemma owns_underlying n st :
  owns n st -> exists u, underlying st = Some u /\ times_closed u = n.
Proof.
  intros [Hp (u & Hu & Hn)]. exists u. unfold underlying. by rewrite Hp.
Qed.

Lemma owns_set_underlying n st u :
  owns n st -> times_closed u = n ->
  owns n (set_underlying st u) /\ (set_underlying st u).1 = st.1.
Proof.
  intros [Hp _] Hu. unfold set_underlying. rewrite Hp. simpl.
  split; [|done]. split; [done|]. by exists u.
Qed.

Lemma owns_set_local n st buffer eos :
  owns n st -> owns n (set_local st buffer eos).
Proof. intros [Hp Hu]. split; assumption. Qed.

(** No operation but [close] closes an owned reader, takes it out of the
    holder, or touches the caller's memory; none can fail. *)
Lemma owns_apply_operation n (o : operation) st :
  owns n st ->
  exists st', apply_operation o st = Some st' /\ owns n st' /\ st'.1 = st.1.
Proof.
  intros Hown. destruct o as [|pr|pr|]; simpl.
  - unfold fill_buffer. destruct (buffer_is_full (_buffer st.2)); [by eexists|].
    destruct (owns_underlying n st Hown) as (u & -> & Hn). simpl.
    eexists. split; [reflexivity|].
    edestruct (owns_set_underlying n st) as [Ho Hm]; [done| |].
    2:{ split; [apply owns_set_local, Ho|]. simpl. exact Hm. }
    rewrite !times_closed_perform by done. done.
  - unfold fast_forward_to_position.
    pose proof (owns_set_local n st (buffer_forward_to pr (_buffer st.2)) false Hown)
      as Hown1.
    destruct (owns_underlying n _ Hown1) as (u & -> & Hn). simpl.
    eexists. split; [reflexivity|].
    edestruct (owns_set_underlying n (set_local st (buffer_forward_to pr (_buffer st.2)) false))
      as [Ho Hm]; [done| |].
    2:{ split; [exact Ho|]. rewrite Hm. done. }
    rewrite times_closed_perform by done. done.
  - unfold fast_forward_to_partition.
    pose proof (owns_set_local n st [] false Hown) as Hown1.
    destruct (owns_underlying n _ Hown1) as (u & -> & Hn). simpl.
    eexists. split; [reflexivity|].
    edestruct (owns_set_underlying n (set_local st [] false)) as [Ho Hm]; [done| |].
    2:{ split; [exact Ho|]. rewrite Hm. done. }
    rewrite times_closed_perform by done. done.
  - unfold next_partition.
    pose proof (owns_set_local n st (buffer_clear_to_next_partition (_buffer st.2))
                  (_end_of_stream st.2) Hown) as Hown1.
    destruct (owns_underlying n _ Hown1) as (u & -> & Hn). simpl.
    eexists. split; [reflexivity|].
    destruct (buffer_clear_to_next_partition (_buffer st.2)) as [|x rest] eqn:Eb.
    + edestruct (owns_set_underlying n (set_local st [] (_end_of_stream st.2)))
        as [Ho Hm]; [done| |].
      2:{ split; [apply owns_set_local, Ho|]. simpl. rewrite Hm. done. }
      rewrite times_closed_perform by done. done.
    + split; [|done]. apply owns_set_local. exact Hown1.
Qed.

Lemma owns_apply_operations n (os : list operation) st :
  owns n st ->
  exists st', apply_operations os st = Some st' /\ owns n st' /\ st'.1 = st.1.
Proof.
  revert st. induction os as [|o rest IH]; intros st Hown; simpl.
  - by exists st.
  - destruct (owns_apply_operation n o st Hown) as (st1 & -> & Hown1 & Hm1). simpl.
    destruct (IH st1 Hown1) as (st2 & -> & Hown2 & Hm2).
    exists st2. split; [done|]. split; [done|]. congruence.
Qed.

Lemma owns_close n st :
  owns n st ->
  exists u,
    underlying st = Some u /\ times_closed u = n /\
    underlying (close st) = Some (reader_close u) /\
    (close st).1 = st.1.
Proof.
  intros [Hp (u & Hu & Hn)]. exists u.
  unfold underlying, close. rewrite Hu. simpl. rewrite Hp. done.
Qed.

Lemma borrows_set_underlying a st u :
  borrows a st -> borrows a (set_underlying st u).
Proof. intros [Hp Hh]. unfold set_underlying. rewrite Hp. by split. Qed.

Lemma borrows_set_local a st buffer eos :
  borrows a st -> borrows a (set_local st buffer eos).
Proof. intros [Hp Hh]. by split. Qed.

(** No operation engages the holder of a borrowing wrapper. *)
Lemma borrows_apply_operation a (o : operation) st st' :
  borrows a st -> apply_operation o st = Some st' -> borrows a st'.
Proof.
  intros Hb. destruct o as [|pr|pr|]; simpl.
  - unfold fill_buffer. destruct (buffer_is_full (_buffer st.2)); [by intros [= <-]|].
    destruct (underlying st) as [u|]; simpl; [|done]. intros [= <-].
    by apply borrows_set_local, borrows_set_underlying.
  - unfold fast_forward_to_position.
    destruct (underlying _) as [u|]; simpl; [|done]. intros [= <-].
    by apply borrows_set_underlying, borrows_set_local.
  - unfold fast_forward_to_partition.
    destruct (underlying _) as [u|]; simpl; [|done]. intros [= <-].
    by apply borrows_set_underlying, borrows_set_local.
  - unfold next_partition.
    destruct (underlying _) as [u|]; simpl; [|done]. intros [= <-].
    destruct (buffer_clear_to_next_partition (_buffer st.2));
      repeat (apply borrows_set_local || apply borrows_set_underlying); done.
Qed.

Lemma borrows_apply_operations a (os : list operation) st st' :
  borrows a st -> apply_operations os st = Some st' -> borrows a st'.
Proof.
  revert st. induction os as [|o rest IH]; intros st Hb; simpl.
  - by intros [= <-].
  - destruct (apply_operation o st) as [st1|] eqn:E; simpl; [|done].
    apply IH. by eapply borrows_apply_operation.
Qed.

End DelegatingReaderFacts.

(** C8: whatever operations a delegating reader has undergone since its
    construction, closing one built from an rvalue closes the reader it holds
    exactly once (the only close that reader sees) and leaves the caller's
    memory alone; closing one built from an lvalue reference changes nothing:
    the underlying reader in the caller's memory sees no operation. *)
Theorem close_follows_ownership
    {R F P Q : Type} `{DelegatingReader.ReaderImpl R F P Q}
    (m : gmap DelegatingReader.address
           (DelegatingReader.flat_mutation_reader_v2 (R := R)))
    (os : list (DelegatingReader.operation (P := P) (Q := Q))) :
  (forall r : DelegatingReader.flat_mutation_reader_v2 (R := R),
   exists st u,
     DelegatingReader.apply_operations os
       (m, DelegatingReader.delegating_reader_v2_move (F := F) r) = Some st /\
     DelegatingReader.underlying st = Some u /\
     DelegatingReader.times_closed u = DelegatingReader.times_closed r /\
     DelegatingReader.underlying (DelegatingReader.close st)
     = Some (DelegatingReader.reader_close u) /\
     DelegatingReader.performed (DelegatingReader.reader_close u)
     = DelegatingReader.performed u ++ [DelegatingReader.call_close] /\
     DelegatingReader.times_closed (DelegatingReader.reader_close u)
     = Datatypes.S (DelegatingReader.times_closed r) /\
     (DelegatingReader.close st).1 = m) /\
  (forall (a : DelegatingReader.address) st,
     DelegatingReader.apply_operations os
       (m, DelegatingReader.delegating_reader_v2_ref (F := F) a) = Some st ->
     DelegatingReader.close st = st).
Proof.
  split.
  - intros r.
    destruct (owns_apply_operations (DelegatingReader.times_closed r) os
                (m, DelegatingReader.delegating_reader_v2_move r))
      as (st & Hst & Hown & Hm).
    { split; [done|]. by exists r. }
    destruct (owns_close _ st Hown) as (u & Hu & Hn & Hcu & Hcm).
    exists st, u. split; [exact Hst|]. split; [exact Hu|]. split; [exact Hn|].
    split; [exact Hcu|]. split; [reflexivity|]. split.
    + by rewrite times_closed_reader_close, Hn.
    + by rewrite Hcm, Hm.
  - intros a st Hst.
    destruct (borrows_apply_operations a os
                (m, DelegatingReader.delegating_reader_v2_ref a) st)
      as [_ Hh]; [by split|exact Hst|].
    unfold DelegatingReader.close. by rewrite Hh.
Qed.

Lemma close_follows_ownership_witness :
  exists st,
    DelegatingReader.apply_operations
      [DelegatingReader.do_fill_buffer; DelegatingReader.do_next_partition]
      (<[1%positive := DelegatingReader.fresh_list_reader [1; 2; 3]%nat]> ∅,
       DelegatingReader.delegating_reader_v2_ref 1%positive) = Some st /\
    DelegatingReader.close st = st.
Proof.
  eexists. split.
  - vm_compute. reflexivity.
  - refine (proj2 (close_follows_ownership
                     (<[1%positive := DelegatingReader.fresh_list_reader [1; 2; 3]%nat]> ∅)
                     [DelegatingReader.do_fill_buffer; DelegatingReader.do_next_partition])
              1%positive _ _).
    vm_compute. reflexivity.
Defined.

(** A run on a borrowed reader, evaluated: the wrapper fills its buffer from the
    reader at address 1 and moves on to the next partition; closing it then
    leaves that reader with the three operations the wrapper forwarded. *)
Example borrowed_reader_after_close :
  (st ← DelegatingReader.apply_operations
          [DelegatingReader.do_fill_buffer; DelegatingReader.do_next_partition]
          (<[1%positive := DelegatingReader.fresh_list_reader [1; 2; 3]%nat]> ∅,
           DelegatingReader.delegating_reader_v2_ref 1%positive);
   u ← (DelegatingReader.close st).1 !! 1%positive;
   Some (DelegatingReader.performed u))
  = Some [DelegatingReader.call_fill_buffer;
          DelegatingReader.call_move_buffer_content_to;
          DelegatingReader.call_next_partition].
Proof. vm_compute. reflexivity. Qed.

(** The same run on a reader moved into the wrapper ends with its close. *)
Example owned_reader_after_close :
  (st ← DelegatingReader.apply_operations
          [DelegatingReader.do_fill_buffer; DelegatingReader.do_next_partition]
          (∅, DelegatingReader.delegating_reader_v2_move
                (DelegatingReader.fresh_list_reader [1; 2; 3]%nat));
   u ← DelegatingReader.underlying (DelegatingReader.close st);
   Some (DelegatingReader.performed u))
  = Some [DelegatingReader.call_fill_buffer;
          DelegatingReader.call_move_buffer_content_to;
          DelegatingReader.call_next_partition;
          DelegatingReader.call_close].
Proof. vm_compute. reflexivity. Qed.

(** * Further properties of the voter registry *)

Section VoterRegistryMore.
Import VoterRegistry.

Implicit Types (reg : group0_voter_registry) (nodes : node_sequence).
Implicit Types (acc : gset server_id) (c : raft_voter_client).

Lemma insert_nodes_loop_take M nodes acc :
  NoDup nodes -> (forall x, x ∈ nodes -> x ∉ acc) -> (size acc <= M)%nat ->
  insert_nodes_loop M nodes acc = acc ∪ list_to_set (take (M - size acc) nodes).
Proof.
  revert acc. induction nodes as [|n rest IH]; intros acc Hnd Hdis Hle; simpl.
  - rewrite take_nil. set_solver.
  - apply NoDup_cons in Hnd as [Hn Hnd].
    case_decide as Hfull.
    + replace (M - size acc)%nat with 0%nat by lia. simpl. set_solver.
    + assert (Hsz : size (acc ∪ {[n]}) = Datatypes.S (size acc)).
      { rewrite size_union by set_solver. rewrite size_singleton. lia. }
      rewrite IH; [|done| |lia].
      * rewrite Hsz.
        replace (M - size acc)%nat with (Datatypes.S (M - Datatypes.S (size acc))) by lia.
        simpl. set_solver.
      * intros x Hx. assert (x ∉ acc) by (apply Hdis; set_solver).
        set_solver.
Qed.

Lemma insert_nodes_size_le reg nodes :
  (size (call_nodes (insert_nodes reg nodes)) <= _max_voters reg)%nat.
Proof.
  unfold insert_nodes; simpl.
  rewrite insert_nodes_loop_size by (rewrite size_empty; lia). lia.
Qed.

Lemma set_voters_status_size c (call : status_call) :
  (size (voters (set_voters_status c call))
   <= size (voters c) + match call_status call with
                        | can_vote_yes => size (call_nodes call)
                        | can_vote_no => 0
                        end)%nat.
Proof.
  unfold voters, set_voters_status.
  destruct (call_status call); cbn [_voters].
  - rewrite size_union_alt.
    assert (size (call_nodes call ∖ _voters c) <= size (call_nodes call))%nat
      by (apply subseteq_size; set_solver).
    lia.
  - assert (size (_voters c ∖ call_nodes call) <= size (_voters c))%nat
      by (apply subseteq_size; set_solver).
    lia.
Qed.

Lemma forward_adds_at_most reg (r : request) c :
  (size (voters (set_voters_status c (forward reg r)))
   <= size (voters c) + _max_voters reg * (if is_insert r then 1 else 0))%nat.
Proof.
  etrans; [apply set_voters_status_size|].
  destruct r as [n|ns|n|ns]; cbn [forward is_insert].
  - pose proof (insert_nodes_size_le reg [n]). unfold insert_node.
    cbn [call_status insert_nodes] in *. lia.
  - pose proof (insert_nodes_size_le reg ns).
    cbn [call_status insert_nodes] in *. lia.
  - unfold remove_node. cbn [call_status remove_nodes]. lia.
  - cbn [call_status remove_nodes]. lia.
Qed.

End VoterRegistryMore.

(** X1: [insert_nodes] forwards exactly the first [_max_voters] nodes of its
    input, in the order the input set is iterated: the nodes beyond the cap
    are the ones visited last. *)
Theorem insert_nodes_takes_first
    (reg : VoterRegistry.group0_voter_registry)
    (nodes : VoterRegistry.node_sequence) :
  NoDup nodes ->
  VoterRegistry.call_nodes (VoterRegistry.insert_nodes reg nodes)
  = list_to_set (take (VoterRegistry._max_voters reg) nodes).
Proof.
  intros Hnd. unfold VoterRegistry.insert_nodes; simpl.
  rewrite insert_nodes_loop_take; [|done|set_solver|rewrite size_empty; lia].
  rewrite size_empty, Nat.sub_0_r. set_solver.
Qed.

Lemma insert_nodes_takes_first_witness :
  VoterRegistry.call_nodes
    (VoterRegistry.insert_nodes {| VoterRegistry._max_voters := 2 |}
       [5; 3; 9]%positive)
  = list_to_set (take 2 [5; 3; 9]%positive).
Proof.
  apply (insert_nodes_takes_first {| VoterRegistry._max_voters := 2 |}
           [5; 3; 9]%positive).
  apply (bool_decide_unpack _). vm_compute. exact I.
Defined.

(** X2: when the input fits the cap (as it always does with the default,
    unlimited one), inserting a set of nodes and then removing another leaves
    the voter client with its earlier voters and the inserted nodes, minus
    the removed ones. *)
Theorem insert_then_remove
    (reg : VoterRegistry.group0_voter_registry)
    (inserted removed : VoterRegistry.node_sequence)
    (c : VoterRegistry.raft_voter_client) :
  NoDup inserted ->
  (length inserted <= VoterRegistry._max_voters reg)%nat ->
  VoterRegistry.voters
    (VoterRegistry.run reg
       [VoterRegistry.InsertNodes inserted; VoterRegistry.RemoveNodes removed] c)
  = (VoterRegistry.voters c ∪ list_to_set inserted) ∖ list_to_set removed.
Proof.
  intros Hnd Hlen.
  unfold VoterRegistry.run, VoterRegistry.voters; simpl.
  unfold VoterRegistry.set_voters_status; simpl.
  rewrite insert_nodes_loop_take; [|done|set_solver|rewrite size_empty; lia].
  rewrite size_empty, Nat.sub_0_r, take_ge by lia. set_solver.
Qed.

Lemma insert_then_remove_witness :
  VoterRegistry.voters
    (VoterRegistry.run {| VoterRegistry._max_voters := 5 |}
       [VoterRegistry.InsertNodes [7; 8]%positive;
        VoterRegistry.RemoveNodes [7]%positive]
       VoterRegistry.empty_client)
  = (VoterRegistry.voters VoterRegistry.empty_client ∪ list_to_set [7; 8]%positive)
    ∖ list_to_set [7]%positive.
Proof.
  apply (insert_then_remove {| VoterRegistry._max_voters := 5 |}
           [7; 8]%positive [7]%positive VoterRegistry.empty_client).
  - apply (bool_decide_unpack _). vm_compute. exact I.
  - simpl. lia.
Defined.

(** X3: over any sequence of requests the voter client gains at most
    [_max_voters] voters per insert request, and none by a removal; a
    registry with maximum 0 never makes a node a voter. *)
Theorem voters_bounded_by_insert_requests
    (reg : VoterRegistry.group0_voter_registry)
    (rs : list VoterRegistry.request) (c : VoterRegistry.raft_voter_client) :
  (size (VoterRegistry.voters (VoterRegistry.run reg rs c))
   <= size (VoterRegistry.voters c)
      + VoterRegistry._max_voters reg * VoterRegistry.insert_requests rs)%nat.
Proof.
  revert c. induction rs as [|r rest IH]; intros c.
  - simpl. lia.
  - change (VoterRegistry.run reg (r :: rest) c)
      with (VoterRegistry.run reg rest
              (VoterRegistry.set_voters_status c (VoterRegistry.forward reg r))).
    etrans; [apply IH|].
    pose proof (forward_adds_at_most reg r c).
    cbn [VoterRegistry.insert_requests]. lia.
Qed.

(** * Further properties of the instance-profile credentials provider *)

Section CredentialsParse.
Import Credentials.

Implicit Types (p q : instance_profile_credentials_provider)
  (doc : parsed_document) (docs : list parsed_document).









End CredentialsParse.





(** A fetch cut short, evaluated: the first body has the access key id only
    and the second does not parse, so the provider ends with the new access
    key id beside the old secret key, token and expiry. *)
Example half_updated_credentials :
  Credentials.creds
    (Credentials.final
       (Credentials.update_credentials Credentials.truncating_service 5000
          (Credentials.sample_provider 1000)))
  = {| Credentials.access_key_id := "NEWKEY";
       Credentials.secret_access_key := "secret";
       Credentials.session_token := "session";
       Credentials.expires_at := 1000 |}.
Proof. reflexivity. Qed.

Section CredentialsMore.
Import Credentials.

Lemma reload_keeps_stale (svc : metadata_service) (t : Z)
    (p : instance_profile_credentials_provider) :
  has_credentials (creds p) = true -> expires_at (creds p) <= t ->
  reload svc t p = {| sent := []; final := p |}.
Proof.
  intros Hc Ht. unfold reload, is_time_to_refresh.
  rewrite Hc. replace (expires_at (creds p) <=? t) with true
    by (symmetry; by apply Z.leb_le).
  reflexivity.
Qed.

End CredentialsMore.

(** X6: a provider holding credentials that have reached their expiry is
    never refreshed by [reload]: called at any sequence of times at or after
    the expiry, it sends no request and leaves the provider, expired
    credentials included, as it is. *)
Theorem expired_credentials_are_never_reloaded
    (svc : Credentials.metadata_service) (times : list Z)
    (p : Credentials.instance_profile_credentials_provider) :
  Credentials.has_credentials (Credentials.creds p) = true ->
  Forall (fun t => Credentials.expires_at (Credentials.creds p) <= t) times ->
  Credentials.reload_sequence svc times p = ([], p).
Proof.
  intros Hc Htimes. induction Htimes as [|t rest Ht _ IH]; [reflexivity|].
  simpl. rewrite reload_keeps_stale by done. simpl. by rewrite IH.
Qed.

Lemma expired_credentials_are_never_reloaded_witness :
  Credentials.reload_sequence Credentials.sample_service [1000; 5000; 90000]
    (Credentials.sample_provider 1000)
  = ([], Credentials.sample_provider 1000).
Proof.
  apply expired_credentials_are_never_reloaded.
  - reflexivity.
  - repeat constructor; simpl; lia.
Defined.

(** * Further properties of the consumed-capacity counters *)

Section ConsumedCapacityMore.
Import ConsumedCapacity.

Lemma add_bytes_total (c : consumed_capacity_counter) (bytes : list Z) :
  0 <= _total_bytes c < 2 ^ 64 ->
  _total_bytes (foldl add_bytes c bytes)
  = wrap64 (_total_bytes c + foldr Z.add 0 bytes).
Proof.
  revert c. induction bytes as [|b rest IH]; intros c Hc; simpl.
  - unfold wrap64. rewrite Z.add_0_r, Z.mod_small; lia.
  - rewrite IH.
    + unfold add_bytes, wrap64; simpl.
      rewrite Zplus_mod_idemp_l. f_equal. lia.
    + unfold add_bytes, wrap64; simpl. apply Z.mod_pos_bound. lia.
Qed.

Lemma add_bytes_keeps_kind (c : consumed_capacity_counter) (bytes : list Z) :
  kind (foldl add_bytes c bytes) = kind c.
Proof.
  revert c. induction bytes as [|b rest IH]; intros c; simpl; [done|].
  by rewrite IH.
Qed.

Lemma raw_units_bound (bs total : Z) :
  2 <= bs -> 0 <= wrap64 (wrap64 (total + bs) - 1) / bs < 2 ^ 63.
Proof.
  intros Hbs. unfold wrap64.
  pose proof (Z.mod_pos_bound ((total + bs) mod 2 ^ 64 - 1) (2 ^ 64) ltac:(lia)).
  split; [apply Z.div_pos; lia|].
  apply Z.div_lt_upper_bound; lia.
Qed.

Lemma ceil_div_mono (a b bs : Z) :
  0 < bs -> a <= b -> ceil_div a bs <= ceil_div b bs.
Proof.
  intros Hbs Hab. rewrite <- !ceil_div_round_up by lia.
  apply Z.div_le_mono; lia.
Qed.

Lemma ceil_div_add_le (a b bs : Z) :
  0 < bs -> ceil_div (a + b) bs <= ceil_div a bs + ceil_div b bs.
Proof.
  intros Hbs. rewrite <- !ceil_div_round_up by lia.
  pose proof (Z.div_mod (a + bs - 1) bs ltac:(lia)).
  pose proof (Z.mod_pos_bound (a + bs - 1) bs Hbs).
  pose proof (Z.div_mod (b + bs - 1) bs ltac:(lia)).
  pose proof (Z.mod_pos_bound (b + bs - 1) bs Hbs).
  apply Z.lt_succ_r. apply Z.div_lt_upper_bound; [lia|]. nia.
Qed.

End ConsumedCapacityMore.

(** X7: the charge depends only on the total: however the bytes are split
    over [+=] calls on a freshly built counter, the accumulated total is
    their sum modulo 2^64, and the kind of counter and the reporting flag
    stay as built. *)
Theorem accumulated_bytes_are_summed
    (request : ConsumedCapacity.json_object) (is_quorum : bool)
    (c : ConsumedCapacity.consumed_capacity_counter) (bytes : list Z) :
  ConsumedCapacity.rcu_consumed_capacity_counter request is_quorum = Ok c \/
  ConsumedCapacity.wcu_consumed_capacity_counter request = Ok c ->
  let c' := foldl ConsumedCapacity.add_bytes c bytes in
  ConsumedCapacity._total_bytes c'
  = ConsumedCapacity.wrap64 (foldr Z.add 0 bytes) /\
  ConsumedCapacity.kind c' = ConsumedCapacity.kind c /\
  ConsumedCapacity._should_add_to_reponse c'
  = ConsumedCapacity._should_add_to_reponse c.
Proof.
  intros Hc c'.
  assert (Hzero : ConsumedCapacity._total_bytes c = 0).
  { unfold ConsumedCapacity.rcu_consumed_capacity_counter,
      ConsumedCapacity.wcu_consumed_capacity_counter in Hc.
    destruct (ConsumedCapacity.should_add_capacity request); simpl in Hc;
      destruct Hc as [[= <-]|[= <-]]; reflexivity. }
  unfold c'. split; [|split].
  - rewrite add_bytes_total by (rewrite Hzero; lia). by rewrite Hzero.
  - apply add_bytes_keeps_kind.
  - apply add_bytes_keeps_flag.
Qed.

Lemma accumulated_bytes_are_summed_witness :
  ConsumedCapacity._total_bytes
    (foldl ConsumedCapacity.add_bytes
       {| ConsumedCapacity.kind := ConsumedCapacity.rcu false;
          ConsumedCapacity._should_add_to_reponse := false;
          ConsumedCapacity._total_bytes := 0 |} [100; 4000; 96])
  = ConsumedCapacity.wrap64 (foldr Z.add 0 [100; 4000; 96]).
Proof.
  refine (proj1 (accumulated_bytes_are_summed [] false _ [100; 4000; 96] _)).
  left. reflexivity.
Defined.

(** X8: below the wrap-around, a counter holding the bytes of two reads (or
    two writes) together is charged at least as much as for either alone and
    at most the sum of their separate charges. *)
Theorem charge_is_monotone_and_subadditive
    (k : ConsumedCapacity.counter_kind) (flag : bool) (a b : Z) :
  0 <= a -> 0 <= b -> a + b <= 2 ^ 64 - 4096 ->
  let units x :=
    ConsumedCapacity.get_internal_units
      {| ConsumedCapacity.kind := k;
         ConsumedCapacity._should_add_to_reponse := flag;
         ConsumedCapacity._total_bytes := x |} in
  units a <= units (a + b) <= units a + units b.
Proof.
  intros Ha Hb Hab units. unfold units, ConsumedCapacity.get_internal_units.
  cbn [ConsumedCapacity.kind ConsumedCapacity._total_bytes].
  destruct k as [q|];
    unfold ConsumedCapacity.RCU_BLOCK_SIZE_LENGTH,
      ConsumedCapacity.WCU_BLOCK_SIZE_LENGTH, ConsumedCapacity.KB;
    rewrite !calculate_internal_units_no_wrap by lia;
    change (4 * 1024) with 4096; change (1 * 1024) with 1024.
  - pose proof (ceil_div_mono a (a + b) 4096 ltac:(lia) ltac:(lia)).
    pose proof (ceil_div_add_le a b 4096 ltac:(lia)).
    destruct q; lia.
  - pose proof (ceil_div_mono a (a + b) 1024 ltac:(lia) ltac:(lia)).
    pose proof (ceil_div_add_le a b 1024 ltac:(lia)).
    lia.
Qed.

Lemma charge_is_monotone_and_subadditive_witness :
  ConsumedCapacity.get_internal_units
    {| ConsumedCapacity.kind := ConsumedCapacity.rcu false;
       ConsumedCapacity._should_add_to_reponse := false;
       ConsumedCapacity._total_bytes := 100 |}
  <= ConsumedCapacity.get_internal_units
       {| ConsumedCapacity.kind := ConsumedCapacity.rcu false;
          ConsumedCapacity._should_add_to_reponse := false;
          ConsumedCapacity._total_bytes := 100 + 5000 |}
  <= ConsumedCapacity.get_internal_units
       {| ConsumedCapacity.kind := ConsumedCapacity.rcu false;
          ConsumedCapacity._should_add_to_reponse := false;
          ConsumedCapacity._total_bytes := 100 |}
     + ConsumedCapacity.get_internal_units
         {| ConsumedCapacity.kind := ConsumedCapacity.rcu false;
            ConsumedCapacity._should_add_to_reponse := false;
            ConsumedCapacity._total_bytes := 5000 |}.
Proof.
  apply (charge_is_monotone_and_subadditive (ConsumedCapacity.rcu false) false
           100 5000); lia.
Defined.

(** X9: for every byte total, wrapped or not, a quorum read is charged
    exactly twice the internal units of a non-quorum read of the same size,
    and the internal units of a write are even: the doubling itself never
    wraps. *)
Theorem quorum_doubling_never_wraps (flag : bool) (total : Z) :
  let units k :=
    ConsumedCapacity.get_internal_units
      {| ConsumedCapacity.kind := k;
         ConsumedCapacity._should_add_to_reponse := flag;
         ConsumedCapacity._total_bytes := total |} in
  units (ConsumedCapacity.rcu true) = 2 * units (ConsumedCapacity.rcu false) /\
  Z.even (units ConsumedCapacity.wcu) = true /\
  0 <= units (ConsumedCapacity.rcu true) < 2 ^ 64 /\
  0 <= units ConsumedCapacity.wcu < 2 ^ 64.
Proof.
  intros units. unfold units, ConsumedCapacity.get_internal_units,
    ConsumedCapacity.calculate_internal_units.
  cbn [ConsumedCapacity.kind ConsumedCapacity._total_bytes].
  unfold ConsumedCapacity.RCU_BLOCK_SIZE_LENGTH,
    ConsumedCapacity.WCU_BLOCK_SIZE_LENGTH, ConsumedCapacity.KB.
  pose proof (raw_units_bound (4 * 1024) total ltac:(lia)) as Hr.
  pose proof (raw_units_bound (1 * 1024) total ltac:(lia)) as Hw.
  set (r := ConsumedCapacity.wrap64
              (ConsumedCapacity.wrap64 (total + 4 * 1024) - 1) `div` (4 * 1024)) in *.
  set (w := ConsumedCapacity.wrap64
              (ConsumedCapacity.wrap64 (total + 1 * 1024) - 1) `div` (1 * 1024)) in *.
  unfold ConsumedCapacity.wrap64.
  rewrite !Z.mod_small by lia.
  split; [lia|]. split; [|lia].
  rewrite Z.even_mul. apply orb_true_r.
Qed.

(** * Further properties of the retryable HTTP client *)

Section RetryableHttpMore.
Import RetryableHttp.

Variable from_system_error : Z -> aws_error.
Variable http : nat -> result exception unit.
Variable strategy : retry_strategy.
Variable handler : exception -> result exception unit.

(** [k] failures in a row that the strategy lets retry take the loop [k]
    iterations further. *)
Lemma retry_loop_advance (fails : nat -> exception) (k : nat) :
  forall (w : effects) (fuel : nat),
    Z.of_nat (attempts w + k) < 2 ^ 32 ->
    (forall i, (attempts w <= i < attempts w + k)%nat ->
       http i = Err (fails i) /\
       should_retry strategy (request_ex_of from_system_error (fails i))
         (Z.of_nat i) = true) ->
    retry_loop from_system_error http strategy (k + fuel)
      (Z.of_nat (attempts w)) w
    = retry_loop from_system_error http strategy fuel
        (Z.of_nat (attempts w + k))
        {| attempts := attempts w + k;
           sleeps := sleeps w ++
             retry_delays from_system_error strategy fails (attempts w) k;
           handled := handled w |}.
Proof.
  induction k as [|k IH]; intros w fuel Hlt Hfail.
  - simpl. rewrite Nat.add_0_r. unfold retry_delays. simpl. rewrite app_nil_r.
    by destruct w.
  - destruct (Hfail (attempts w)) as [Hex Hretry]; [lia|].
    cbn [Nat.add retry_loop]. rewrite Hex, Hretry. cbn [negb].
    unfold wrap32. rewrite Z.mod_small by lia.
    replace (Z.of_nat (attempts w) + 1) with (Z.of_nat (Datatypes.S (attempts w))) by lia.
    rewrite (IH {| attempts := Datatypes.S (attempts w);
                   sleeps := sleeps w ++
                     [delay_before_retry strategy
                        (request_ex_of from_system_error (fails (attempts w)))
                        (Z.of_nat (attempts w))];
                   handled := handled w |}).
    + cbn [attempts sleeps handled]. unfold retry_delays. cbn [seq map].
      rewrite <- app_assoc. cbn [app].
      replace (Datatypes.S (attempts w) + k)%nat with (attempts w + Datatypes.S k)%nat by lia.
      reflexivity.
    + cbn [attempts]. lia.
    + cbn [attempts]. intros i Hi. apply Hfail. lia.
Qed.

(** Whenever the loop is left, the attempt it was left on decided it and
    every attempt before that one failed. *)
Lemma retry_loop_shape (fuel : nat) :
  forall (r : Z) (w : effects) (exit : loop_exit) (w' : effects),
    retry_loop from_system_error http strategy fuel r w = Some (exit, w') ->
    exists k : nat,
      attempts w' = Datatypes.S (attempts w + k) /\
      length (sleeps w') = (length (sleeps w) + k)%nat /\
      handled w' = handled w /\
      (forall i, (i < k)%nat -> exists ex, http (attempts w + i) = Err ex) /\
      match exit with
      | Returned => http (attempts w + k) = Ok tt
      | Broke e => http (attempts w + k) = Err e
      end.
Proof.
  induction fuel as [|fuel IH]; intros r w exit w' Hrun; [discriminate|].
  cbn [retry_loop] in Hrun.
  destruct (http (attempts w)) as [[]|ex] eqn:Hex.
  - injection Hrun as <- <-. exists 0%nat. rewrite Nat.add_0_r.
    repeat split; try done. intros i Hi. lia.
  - destruct (should_retry strategy (request_ex_of from_system_error ex) r).
    + cbn [negb] in Hrun. apply IH in Hrun as (k & H1 & H2 & H3 & H4 & H5).
      cbn [attempts sleeps handled] in *.
      rewrite length_app in H2. cbn [length] in H2.
      exists (Datatypes.S k).
      replace (attempts w + Datatypes.S k)%nat with (Datatypes.S (attempts w) + k)%nat by lia.
      repeat split; try done; try lia.
      intros i Hi. destruct i as [|i].
      * rewrite Nat.add_0_r. by exists ex.
      * destruct (H4 i) as (ex' & Hex'); [lia|]. exists ex'.
        by replace (attempts w + Datatypes.S i)%nat with (Datatypes.S (attempts w) + i)%nat by lia.
    + cbn [negb] in Hrun. injection Hrun as <- <-. exists 0%nat.
      rewrite Nat.add_0_r. repeat split; try done. intros i Hi. lia.
Qed.

(** With a strategy that always lets retry and attempts that always fail, no
    number of iterations lets the loop end. *)
Lemma retry_loop_never_ends (fuel : nat) :
  (forall k, exists ex,
     http k = Err ex /\
     forall a, should_retry strategy (request_ex_of from_system_error ex) a = true) ->
  forall (r : Z) (w : effects),
    retry_loop from_system_error http strategy fuel r w = None.
Proof.
  intros Hfail. induction fuel as [|fuel IH]; intros r w; [reflexivity|].
  cbn [retry_loop]. destruct (Hfail (attempts w)) as (ex & -> & Hretry).
  rewrite Hretry. cbn [negb]. apply IH.
Qed.

End RetryableHttpMore.

(** X10: when the first [k] attempts fail with errors the strategy lets retry
    and the next attempt succeeds, the request completes normally after
    exactly [k + 1] attempts, having slept before each retry the delay the
    strategy gives for that error and retry count; the error handler is not
    called. *)
Theorem success_ends_the_retries
    (from_system_error : Z -> RetryableHttp.aws_error)
    (http : nat -> result RetryableHttp.exception unit)
    (strategy : RetryableHttp.retry_strategy)
    (handler : RetryableHttp.exception -> result RetryableHttp.exception unit)
    (fails : nat -> RetryableHttp.exception) (k fuel : nat) (as_ : option bool) :
  as_ <> Some true ->
  Z.of_nat k < 2 ^ 32 ->
  (forall i, (i < k)%nat ->
     http i = Err (fails i) /\
     RetryableHttp.should_retry strategy
       (RetryableHttp.request_ex_of from_system_error (fails i)) (Z.of_nat i)
     = true) ->
  http k = Ok tt ->
  (k < fuel)%nat ->
  RetryableHttp.do_retryable_request from_system_error http strategy handler
    fuel as_
  = Some (Ok tt,
          {| RetryableHttp.attempts := k + 1;
             RetryableHttp.sleeps :=
               RetryableHttp.retry_delays from_system_error strategy fails 0 k;
             RetryableHttp.handled := [] |}).
Proof.
  intros Has Hk Hfail Hok Hfuel.
  unfold RetryableHttp.do_retryable_request.
  replace fuel with (k + Datatypes.S (fuel - k - 1))%nat by lia.
  pose proof (retry_loop_advance from_system_error http strategy fails k
                RetryableHttp.no_effects (Datatypes.S (fuel - k - 1))) as Hadv.
  cbn [RetryableHttp.attempts RetryableHttp.no_effects RetryableHttp.sleeps
       RetryableHttp.handled Nat.add app] in Hadv.
  change (Z.of_nat 0) with 0 in Hadv.
  rewrite Hadv; [|lia|intros i Hi; apply Hfail; lia].
  cbn [RetryableHttp.retry_loop RetryableHttp.attempts]. rewrite Hok.
  replace (Datatypes.S k) with (k + 1)%nat by lia.
  destruct as_ as [[|]|]; [by destruct Has|reflexivity..].
Qed.

Lemma success_ends_the_retries_witness :
  RetryableHttp.do_retryable_request RetryableHttp.plain_from_system_error
    RetryableHttp.unavailable_twice (RetryableHttp.limited_strategy 5)
    RetryableHttp.rethrowing_handler 3 None
  = Some (Ok tt,
          {| RetryableHttp.attempts := 2 + 1;
             RetryableHttp.sleeps :=
               RetryableHttp.retry_delays RetryableHttp.plain_from_system_error
                 (RetryableHttp.limited_strategy 5)
                 (fun _ => RetryableHttp.aws_exception
                             RetryableHttp.service_unavailable) 0 2;
             RetryableHttp.handled := [] |}).
Proof.
  apply success_ends_the_retries.
  - discriminate.
  - lia.
  - intros i Hi. destruct i as [|[|i]]; [split; reflexivity..|lia].
  - reflexivity.
  - lia.
Defined.

(** X11: when the first [k] attempts fail with errors the strategy lets retry
    and the next attempt fails with an error it refuses, the request makes
    exactly [k + 1] attempts and calls the error handler once, with the
    exception of the last attempt as it was thrown (not the AWS error derived
    from it); the outcome of the request is that of the handler call. *)
Theorem refusal_ends_the_retries
    (from_system_error : Z -> RetryableHttp.aws_error)
    (http : nat -> result RetryableHttp.exception unit)
    (strategy : RetryableHttp.retry_strategy)
    (handler : RetryableHttp.exception -> result RetryableHttp.exception unit)
    (fails : nat -> RetryableHttp.exception) (k fuel : nat) (as_ : option bool) :
  as_ <> Some true ->
  Z.of_nat k < 2 ^ 32 ->
  (forall i, (i < k)%nat ->
     http i = Err (fails i) /\
     RetryableHttp.should_retry strategy
       (RetryableHttp.request_ex_of from_system_error (fails i)) (Z.of_nat i)
     = true) ->
  http k = Err (fails k) ->
  RetryableHttp.should_retry strategy
    (RetryableHttp.request_ex_of from_system_error (fails k)) (Z.of_nat k)
  = false ->
  (k < fuel)%nat ->
  RetryableHttp.do_retryable_request from_system_error http strategy handler
    fuel as_
  = Some (handler (fails k),
          {| RetryableHttp.attempts := k + 1;
             RetryableHttp.sleeps :=
               RetryableHttp.retry_delays from_system_error strategy fails 0 k;
             RetryableHttp.handled := [fails k] |}).
Proof.
  intros Has Hk Hfail Hlast Hrefuse Hfuel.
  unfold RetryableHttp.do_retryable_request.
  replace fuel with (k + Datatypes.S (fuel - k - 1))%nat by lia.
  pose proof (retry_loop_advance from_system_error http strategy fails k
                RetryableHttp.no_effects (Datatypes.S (fuel - k - 1))) as Hadv.
  cbn [RetryableHttp.attempts RetryableHttp.no_effects RetryableHttp.sleeps
       RetryableHttp.handled Nat.add app] in Hadv.
  change (Z.of_nat 0) with 0 in Hadv.
  rewrite Hadv; [|lia|intros i Hi; apply Hfail; lia].
  cbn [RetryableHttp.retry_loop RetryableHttp.attempts]. rewrite Hlast, Hrefuse.
  cbn [negb RetryableHttp.attempts RetryableHttp.sleeps RetryableHttp.handled app].
  replace (Datatypes.S k) with (k + 1)%nat by lia.
  destruct as_ as [[|]|]; [by destruct Has|reflexivity..].
Qed.

Lemma refusal_ends_the_retries_witness :
  RetryableHttp.do_retryable_request RetryableHttp.plain_from_system_error
    (fun _ => Err (RetryableHttp.other_exception "broken pipe"))
    (RetryableHttp.limited_strategy 5) RetryableHttp.noting_handler 1 None
  = Some (RetryableHttp.noting_handler (RetryableHttp.other_exception "broken pipe"),
          {| RetryableHttp.attempts := 0 + 1;
             RetryableHttp.sleeps :=
               RetryableHttp.retry_delays RetryableHttp.plain_from_system_error
                 (RetryableHttp.limited_strategy 5)
                 (fun _ => RetryableHttp.other_exception "broken pipe") 0 0;
             RetryableHttp.handled := [RetryableHttp.other_exception "broken pipe"] |}).
Proof.
  apply (refusal_ends_the_retries RetryableHttp.plain_from_system_error
           (fun _ => Err (RetryableHttp.other_exception "broken pipe"))
           (RetryableHttp.limited_strategy 5) RetryableHttp.noting_handler
           (fun _ => RetryableHttp.other_exception "broken pipe") 0 1 None).
  - discriminate.
  - lia.
  - intros i Hi. lia.
  - reflexivity.
  - reflexivity.
  - lia.
Defined.

(** X12: however a request (not aborted on entry) ends, its last attempt
    decided it: there is one more attempt than sleeps, every attempt but the
    last failed, and either the last one succeeded, the request completed
    normally and the error handler was not called, or the last one failed and
    the handler was called exactly once, with that exception, its outcome
    being the outcome of the request. *)
Theorem last_attempt_decides
    (from_system_error : Z -> RetryableHttp.aws_error)
    (http : nat -> result RetryableHttp.exception unit)
    (strategy : RetryableHttp.retry_strategy)
    (handler : RetryableHttp.exception -> result RetryableHttp.exception unit)
    (fuel : nat) (as_ : option bool)
    (r : result RetryableHttp.exception unit) (w : RetryableHttp.effects) :
  as_ <> Some true ->
  RetryableHttp.do_retryable_request from_system_error http strategy handler
    fuel as_ = Some (r, w) ->
  let last := length (RetryableHttp.sleeps w) in
  RetryableHttp.attempts w = Datatypes.S last /\
  (forall i, (i < last)%nat -> exists ex, http i = Err ex) /\
  ((http last = Ok tt /\ r = Ok tt /\ RetryableHttp.handled w = []) \/
   (exists e, http last = Err e /\ r = handler e /\
              RetryableHttp.handled w = [e])).
Proof.
  intros Has Hrun last. unfold RetryableHttp.do_retryable_request in Hrun.
  assert (Hloop : match RetryableHttp.retry_loop from_system_error http strategy
                          fuel 0 RetryableHttp.no_effects with
                  | None => None
                  | Some (RetryableHttp.Returned, w0) => Some (Ok tt, w0)
                  | Some (RetryableHttp.Broke e, w0) =>
                      Some (handler e,
                            {| RetryableHttp.attempts := RetryableHttp.attempts w0;
                               RetryableHttp.sleeps := RetryableHttp.sleeps w0;
                               RetryableHttp.handled :=
                                 RetryableHttp.handled w0 ++ [e] |})
                  end = Some (r, w))
    by (destruct as_ as [[|]|]; [by destruct Has|exact Hrun..]).
  clear Hrun.
  destruct (RetryableHttp.retry_loop from_system_error http strategy fuel 0
              RetryableHttp.no_effects) as [[exit w0]|] eqn:E; [|discriminate].
  apply retry_loop_shape in E as (k & H1 & H2 & H3 & H4 & H5).
  cbn [RetryableHttp.attempts RetryableHttp.sleeps RetryableHttp.handled
       RetryableHttp.no_effects length Nat.add] in *.
  destruct exit as [|e]; injection Hloop as <- <-; unfold last;
    cbn [RetryableHttp.attempts RetryableHttp.sleeps RetryableHttp.handled];
    rewrite H2; (split; [lia|]); (split; [exact H4|]).
  - left. by rewrite H3.
  - right. exists e. by rewrite H3.
Qed.

Lemma last_attempt_decides_witness :
  RetryableHttp.attempts
    {| RetryableHttp.attempts := 3;
       RetryableHttp.sleeps := [100; 100];
       RetryableHttp.handled := [] |}
  = Datatypes.S (length [100; 100]).
Proof.
  refine (proj1 (last_attempt_decides RetryableHttp.plain_from_system_error
                   RetryableHttp.unavailable_twice
                   (RetryableHttp.limited_strategy 5)
                   RetryableHttp.rethrowing_handler 3 None (Ok tt)
                   {| RetryableHttp.attempts := 3;
                      RetryableHttp.sleeps := [100; 100];
                      RetryableHttp.handled := [] |} _ _)).
  - discriminate.
  - reflexivity.
Defined.

(** X13: the loop has no bound of its own: when every attempt fails and the
    strategy lets every error retry at every count, a request that is not
    aborted on entry does not end, whatever number of iterations it is
    given. *)
Theorem retries_without_end
    (from_system_error : Z -> RetryableHttp.aws_error)
    (http : nat -> result RetryableHttp.exception unit)
    (strategy : RetryableHttp.retry_strategy)
    (handler : RetryableHttp.exception -> result RetryableHttp.exception unit)
    (as_ : option bool) :
  as_ <> Some true ->
  (forall k, exists ex,
     http k = Err ex /\
     forall a,
       RetryableHttp.should_retry strategy
         (RetryableHttp.request_ex_of from_system_error ex) a = true) ->
  forall fuel,
    RetryableHttp.do_retryable_request from_system_error http strategy handler
      fuel as_ = None.
Proof.
  intros Has Hfail fuel. unfold RetryableHttp.do_retryable_request.
  rewrite retry_loop_never_ends by exact Hfail.
  destruct as_ as [[|]|]; [by destruct Has|reflexivity..].
Qed.

Lemma retries_without_end_witness :
  RetryableHttp.do_retryable_request RetryableHttp.plain_from_system_error
    RetryableHttp.always_unavailable RetryableHttp.tireless_strategy
    RetryableHttp.noting_handler 1000 None = None.
Proof.
  apply (retries_without_end RetryableHttp.plain_from_system_error
           RetryableHttp.always_unavailable RetryableHttp.tireless_strategy
           RetryableHttp.noting_handler None).
  - discriminate.
  - intros k. eexists. split; [reflexivity|]. intros a. reflexivity.
Defined.

Section MakeRequestMore.
Import RetryableHttp.

Variable from_system_error : Z -> aws_error.
Variable strategy : retry_strategy.

(** The loop sees the connection only through the outcomes of the attempts. *)
Lemma retry_loop_ext (http http' : nat -> result exception unit) :
  (forall k, http k = http' k) ->
  forall (fuel : nat) (r : Z) (w : effects),
    retry_loop from_system_error http strategy fuel r w
    = retry_loop from_system_error http' strategy fuel r w.
Proof.
  intros Heq. induction fuel as [|fuel IH]; intros r w; [reflexivity|].
  cbn [retry_loop]. rewrite <- Heq. destruct (http (attempts w)); [reflexivity|].
  destruct (negb _); [reflexivity|]. apply IH.
Qed.

Lemma do_retryable_request_ext (http http' : nat -> result exception unit)
    (handler : exception -> result exception unit) :
  (forall k, http k = http' k) ->
  forall (fuel : nat) (as_ : option bool),
    do_retryable_request from_system_error http strategy handler fuel as_
    = do_retryable_request from_system_error http' strategy handler fuel as_.
Proof.
  intros Heq fuel as_. unfold do_retryable_request.
  by rewrite (retry_loop_ext http http' Heq).
Qed.

(** A first attempt that fails with an error the strategy refuses ends the
    request with one call of the error handler. *)
Lemma do_retryable_request_refused_at_once
    (http : nat -> result exception unit)
    (handler : exception -> result exception unit) (e : exception)
    (fuel : nat) (as_ : option bool) :
  as_ <> Some true ->
  http 0%nat = Err e ->
  should_retry strategy (request_ex_of from_system_error e) 0 = false ->
  do_retryable_request from_system_error http strategy handler
    (Datatypes.S fuel) as_
  = Some (handler e, {| attempts := 1; sleeps := []; handled := [e] |}).
Proof.
  intros Has Hex Hrefuse. unfold do_retryable_request.
  cbn [retry_loop attempts no_effects sleeps handled]. rewrite Hex, Hrefuse.
  cbn [negb attempts sleeps handled app].
  destruct as_ as [[|]|]; [by destruct Has|reflexivity..].
Qed.

End MakeRequestMore.

(** X14: replies whose status is neither informational nor success never
    reach the caller's reply handler and are never compared with the expected
    status: when every attempt ends without a reply or with such a reply, the
    whole request (outcome, attempts, sleeps, error-handler calls) is the same
    for any two reply handlers and any two expected statuses. *)
Theorem error_replies_bypass_the_reply_handler
    (from_system_error : Z -> RetryableHttp.aws_error)
    (classify_status : Z -> RetryableHttp.status_class)
    (aws_error_parse : string -> option RetryableHttp.aws_error)
    (from_http_code : Z -> RetryableHttp.aws_error)
    (unexpected_status_error : Z -> RetryableHttp.exception)
    (transport : nat ->
                 result RetryableHttp.exception (RetryableHttp.reply * string))
    (strategy : RetryableHttp.retry_strategy)
    (error_handler : RetryableHttp.exception ->
                     result RetryableHttp.exception unit)
    (handle handle' : RetryableHttp.reply_handler)
    (expected expected' : option Z) (fuel : nat) (as_ : option bool) :
  (forall k rep payload,
     transport k = Ok (rep, payload) ->
     classify_status (RetryableHttp._status rep) <> RetryableHttp.informational /\
     classify_status (RetryableHttp._status rep) <> RetryableHttp.success) ->
  RetryableHttp.make_request from_system_error classify_status aws_error_parse
    from_http_code unexpected_status_error transport strategy error_handler
    fuel handle expected as_
  = RetryableHttp.make_request from_system_error classify_status aws_error_parse
      from_http_code unexpected_status_error transport strategy error_handler
      fuel handle' expected' as_.
Proof.
  intros Hclass. unfold RetryableHttp.make_request.
  apply do_retryable_request_ext. intros k.
  unfold RetryableHttp.http_make_request.
  destruct (transport k) as [[rep payload]|e] eqn:Ht; [|reflexivity].
  destruct (Hclass k rep payload Ht) as [Hi Hs].
  unfold RetryableHttp.make_request_handler.
  by destruct (classify_status (RetryableHttp._status rep)).
Qed.

Lemma error_replies_bypass_the_reply_handler_witness :
  RetryableHttp.make_request RetryableHttp.plain_from_system_error
    RetryableHttp.classify_by_hundreds (fun _ => None)
    (fun _ => RetryableHttp.service_unavailable)
    (fun _ => RetryableHttp.other_exception "unexpected status")
    (fun _ => Ok ({| RetryableHttp._status := 503 |}, "busy"%string))
    (RetryableHttp.limited_strategy 2) RetryableHttp.noting_handler
    5 (fun _ _ => Ok tt) None None
  = RetryableHttp.make_request RetryableHttp.plain_from_system_error
      RetryableHttp.classify_by_hundreds (fun _ => None)
      (fun _ => RetryableHttp.service_unavailable)
      (fun _ => RetryableHttp.other_exception "unexpected status")
      (fun _ => Ok ({| RetryableHttp._status := 503 |}, "busy"%string))
      (RetryableHttp.limited_strategy 2) RetryableHttp.noting_handler
      5 (fun _ _ => Err (RetryableHttp.other_exception "handler ran"))
      (Some 503) None.
Proof.
  apply error_replies_bypass_the_reply_handler.
  intros k rep payload [= <- <-]. split; discriminate.
Defined.

(** X15: a first reply whose status is informational or success but is not the
    expected one (200 when none is given) does not reach the caller's reply
    handler: the attempt fails with [unexpected_status_error] of that status,
    and when the strategy refuses to retry it the error handler is called once
    with that exception, after a single attempt. *)
Theorem unexpected_status_is_an_error
    (from_system_error : Z -> RetryableHttp.aws_error)
    (classify_status : Z -> RetryableHttp.status_class)
    (aws_error_parse : string -> option RetryableHttp.aws_error)
    (from_http_code : Z -> RetryableHttp.aws_error)
    (unexpected_status_error : Z -> RetryableHttp.exception)
    (transport : nat ->
                 result RetryableHttp.exception (RetryableHttp.reply * string))
    (strategy : RetryableHttp.retry_strategy)
    (error_handler : RetryableHttp.exception ->
                     result RetryableHttp.exception unit)
    (handle : RetryableHttp.reply_handler) (expected : option Z)
    (rep : RetryableHttp.reply) (payload : string)
    (fuel : nat) (as_ : option bool) :
  as_ <> Some true ->
  transport 0%nat = Ok (rep, payload) ->
  classify_status (RetryableHttp._status rep) = RetryableHttp.informational \/
  classify_status (RetryableHttp._status rep) = RetryableHttp.success ->
  RetryableHttp._status rep <> default RetryableHttp.status_ok expected ->
  RetryableHttp.should_retry strategy
    (RetryableHttp.request_ex_of from_system_error
       (unexpected_status_error (RetryableHttp._status rep))) 0 = false ->
  RetryableHttp.make_request from_system_error classify_status aws_error_parse
    from_http_code unexpected_status_error transport strategy error_handler
    (Datatypes.S fuel) handle expected as_
  = Some (error_handler (unexpected_status_error (RetryableHttp._status rep)),
          {| RetryableHttp.attempts := 1;
             RetryableHttp.sleeps := [];
             RetryableHttp.handled :=
               [unexpected_status_error (RetryableHttp._status rep)] |}).
Proof.
  intros Has Ht Hclass Hne Hrefuse. unfold RetryableHttp.make_request.
  apply do_retryable_request_refused_at_once; [exact Has| |exact Hrefuse].
  unfold RetryableHttp.http_make_request. rewrite Ht.
  unfold RetryableHttp.make_request_handler.
  rewrite bool_decide_eq_false_2 by exact Hne.
  by destruct Hclass as [-> | ->].
Qed.

Lemma unexpected_status_is_an_error_witness :
  RetryableHttp.make_request RetryableHttp.plain_from_system_error
    RetryableHttp.classify_by_hundreds (fun _ => None)
    (fun _ => RetryableHttp.service_unavailable)
    (fun _ => RetryableHttp.other_exception "unexpected status")
    RetryableHttp.no_content_then_ok
    (RetryableHttp.limited_strategy 2) RetryableHttp.noting_handler
    1 (fun _ _ => Ok tt) None None
  = Some (RetryableHttp.noting_handler
            (RetryableHttp.other_exception "unexpected status"),
          {| RetryableHttp.attempts := 1;
             RetryableHttp.sleeps := [];
             RetryableHttp.handled :=
               [RetryableHttp.other_exception "unexpected status"] |}).
Proof.
  apply (unexpected_status_is_an_error RetryableHttp.plain_from_system_error
           RetryableHttp.classify_by_hundreds (fun _ => None)
           (fun _ => RetryableHttp.service_unavailable)
           (fun _ => RetryableHttp.other_exception "unexpected status")
           RetryableHttp.no_content_then_ok
           (RetryableHttp.limited_strategy 2) RetryableHttp.noting_handler
           (fun _ _ => Ok tt) None
           {| RetryableHttp._status := 204 |} ""%string 0 None).
  - discriminate.
  - reflexivity.
  - right. reflexivity.
  - vm_compute. discriminate.
  - reflexivity.
Defined.

(** ** Selection: columns added for post-processing, rows handed to the builder *)

Section SelectionRows.
Import Selection.

Context {S : Type} `{Selector S}.

Lemma std_find_app_l l l' x :
  (std_find l x < length l)%nat -> std_find (l ++ l') x = std_find l x.
Proof.
  induction l as [|c l IH]; simpl; [lia|].
  case_decide; [done|]. intros Hlt. f_equal. apply IH. lia.
Qed.

Lemma std_find_app_r l l' x :
  std_find l x = length l ->
  std_find (l ++ l') x = (length l + std_find l' x)%nat.
Proof.
  induction l as [|c l IH]; simpl; [done|].
  case_decide; [lia|]. intros Heq. f_equal. apply IH. lia.
Qed.

Lemma add_cells_current (b : result_set_builder (S := S)) cur cells :
  current b = Some cur ->
  add_cells b cells = Ok (with_current b (Some (cur ++ cells))).
Proof.
  revert b cur. induction cells as [|v rest IH]; intros b cur Hc;
    cbn [add_cells].
  - rewrite app_nil_r. destruct b; cbn in *. by subst.
  - unfold add. rewrite Hc. cbn [rbind].
    rewrite (IH _ (cur ++ [v])) by reflexivity.
    rewrite <- app_assoc. reflexivity.
Qed.

Lemma feed_row_unfold (b : result_set_builder (S := S)) r :
  feed_row b r
  = let? b1 := process_current_row b true in Ok (with_current b1 (Some r)).
Proof.
  unfold feed_row, new_row.
  destruct (process_current_row b true) as [b1|e]; cbn [rbind]; [|done].
  by rewrite (add_cells_current _ []) by reflexivity.
Qed.

Lemma process_simple (b : result_set_builder (S := S)) more :
  builder_selectors b = simple_selectors ->
  process_current_row b more
  = Ok (match current b with
        | None => b
        | Some cur => add_row (with_current b (Some [])) cur
        end).
Proof.
  intros Hs. unfold process_current_row.
  destruct (current b) as [cur|] eqn:Hc; [|done].
  rewrite Hs. cbn [is_aggregate negb]. unfold transform_input_row.
  rewrite Hs. reflexivity.
Qed.

Lemma feed_rows_simple rows :
  forall b : result_set_builder (S := S),
    builder_selectors b = simple_selectors ->
    exists b',
      feed_rows b rows = Ok b' /\
      builder_selectors b' = simple_selectors /\
      _result_set b' ++ option_list (current b')
      = _result_set b ++ option_list (current b) ++ rows.
Proof.
  induction rows as [|r rest IH]; intros b Hs; cbn [feed_rows].
  - exists b. by rewrite app_nil_r.
  - rewrite feed_row_unfold, process_simple by done. cbn [rbind].
    match goal with |- context [feed_rows ?x rest] => set (b1 := x) end.
    destruct (IH b1) as (b' & Hrun & Hs' & Hrows).
    { subst b1. by destruct (current b). }
    exists b'. split; [done|]. split; [done|]. rewrite Hrows. subst b1.
    destruct (current b); cbn; rewrite <- ?app_assoc; done.
Qed.

Lemma build_simple (b : result_set_builder (S := S)) :
  builder_selectors b = simple_selectors ->
  build b = Ok (_result_set b ++ option_list (current b)).
Proof.
  intros Hs. unfold build. rewrite process_simple by done. cbn [rbind].
  destruct (current b) as [cur|]; cbn; rewrite Hs; cbn;
    rewrite ?andb_false_r, ?app_nil_r; done.
Qed.

Lemma rev_eq_iff {A : Type} (l1 l2 : list A) : rev l1 = rev l2 <-> l1 = l2.
Proof.
  split; [|by intros ->]. intros Heq.
  by rewrite <- (rev_involutive l1), Heq, rev_involutive.
Qed.

Lemma row_key_length gb (r : row) k :
  row_key gb r = Some k -> length k = length gb.
Proof.
  unfold row_key. revert k. induction gb as [|i gb IH]; intros k; cbn.
  - by intros [= <-].
  - destruct (r !! i); cbn; [|done].
    destruct (mapM _ gb) as [k'|]; cbn; [|done].
    intros [= <-]. cbn. f_equal. by apply IH.
Qed.

(** One row taken in by an aggregating builder: the group so far is flushed
    when the row's key differs from the last one, then the row is given to the
    selectors, and they are flushed when no more rows are coming. *)
Lemma process_aggregate (b : result_set_builder (S := S)) l cur k more :
  builder_selectors b = selectors_with_processing true l ->
  current b = Some cur ->
  row_key (_group_by_cell_indices b) cur = Some k ->
  length (_last_group b) = length (_group_by_cell_indices b) ->
  let ended := _group_began b && negb (bool_decide (_last_group b = k)) in
  let l1 := if ended then map reset l else l in
  let R1 := if ended then _result_set b ++ [map get_output l]
            else _result_set b in
  let l2 := map (fun s => add_input s (builder_input b cur)) l1 in
  process_current_row b more
  = Ok {| _result_set := if more then R1 else R1 ++ [map get_output l2];
          builder_selectors :=
            selectors_with_processing true
              (if more then l2 else map reset l2);
          _group_by_cell_indices := _group_by_cell_indices b;
          _last_group := k;
          _group_began := true;
          current := if more then Some [] else Some cur;
          _timestamps := _timestamps b;
          _ttls := _ttls b;
          _now := _now b |}.
Proof.
  destruct b as [R sel gb last began c ts tt now].
  cbn [builder_selectors current _group_by_cell_indices _last_group
       _group_began _result_set _timestamps _ttls _now].
  intros -> -> Hk Hlen.
  pose proof (row_key_length _ _ _ Hk) as Hklen.
  unfold row_key in Hk.
  unfold process_current_row, last_group_ended, group_cells.
  cbn [builder_selectors current _group_by_cell_indices _last_group
       _group_began _result_set _timestamps _ttls _now is_aggregate negb].
  destruct began; cbn [negb andb].
  - destruct last as [|x last].
    + assert (k = []) as -> by (apply nil_length_inv; cbn in *; lia).
      rewrite bool_decide_eq_true_2 by done. cbn [rbind negb].
      unfold update_last_group, group_cells. cbn [current _group_by_cell_indices].
      rewrite Hk. cbn. destruct more; reflexivity.
    + rewrite Hk. cbn [rbind].
      rewrite (bool_decide_ext _ _ (rev_eq_iff (x :: last) k)).
      destruct (bool_decide (x :: last = k)); cbn [negb rbind].
      * unfold update_last_group, group_cells.
        cbn [current _group_by_cell_indices]. rewrite Hk. cbn.
        destruct more; reflexivity.
      * unfold flush_selectors. cbn. unfold update_last_group, group_cells.
        cbn. rewrite Hk. cbn. destruct more; reflexivity.
  - cbn [rbind]. unfold update_last_group, group_cells.
    cbn [current _group_by_cell_indices]. rewrite Hk. cbn.
    destruct more; reflexivity.
Qed.

Lemma aggregate_new_selectors (s : selection (S := S)) :
  is_aggregate (new_selectors s) = true ->
  exists l, new_selectors s = selectors_with_processing true l.
Proof.
  destruct (new_selectors s) as [|a l]; cbn; [done|]. intros ->. by exists l.
Qed.

(** Without group-by columns nothing is flushed before [build]: the selectors
    take in every row, the row still pending included. *)
Lemma feed_rows_no_group (ts tt : list Z) rows :
  forall (b : result_set_builder (S := S)) l,
    builder_selectors b = selectors_with_processing true l ->
    _group_by_cell_indices b = [] -> _last_group b = [] ->
    _timestamps b = ts -> _ttls b = tt ->
    exists b' l',
      feed_rows b rows = Ok b' /\
      builder_selectors b' = selectors_with_processing true l' /\
      _group_by_cell_indices b' = [] /\ _last_group b' = [] /\
      _timestamps b' = ts /\ _ttls b' = tt /\
      _result_set b' = _result_set b /\
      foldl (fun l r =>
               map (fun s => add_input s
                      {| input_cells := r; input_timestamps := ts;
                         input_ttls := tt |}) l)
            l' (option_list (current b'))
      = foldl (fun l r =>
                 map (fun s => add_input s
                        {| input_cells := r; input_timestamps := ts;
                           input_ttls := tt |}) l)
              l (option_list (current b) ++ rows).
Proof.
  induction rows as [|r rest IH]; intros b l Hsel Hgb Hlast Hts Htt;
    cbn [feed_rows].
  - exists b, l. by rewrite app_nil_r.
  - rewrite feed_row_unfold. destruct (current b) as [cur|] eqn:Hc.
    + rewrite (process_aggregate b l cur [] true Hsel Hc)
        by (rewrite ?Hgb, ?Hlast; done).
      cbn [rbind]. rewrite Hlast, bool_decide_eq_true_2 by done.
      rewrite andb_false_r.
      match goal with |- context [feed_rows ?x rest] => set (b1 := x) end.
      destruct (IH b1 (map (fun s => add_input s (builder_input b cur)) l))
        as (b' & l' & Hrun & Hsel' & Hgb' & Hlast' & Hts' & Htt' & HR & Hfold);
        [done..|].
      exists b', l'. repeat (split; [done|]). rewrite Hfold. subst b1.
      cbn [current option_list app foldl]. unfold builder_input.
      by rewrite Hts, Htt.
    + unfold process_current_row. rewrite Hc. cbn [rbind].
      destruct (IH (with_current b (Some r)) l)
        as (b' & l' & Hrun & Hsel' & Hgb' & Hlast' & Hts' & Htt' & HR & Hfold);
        [done..|].
      exists b', l'. repeat (split; [done|]). by rewrite Hfold.
Qed.

Lemma build_no_group (b : result_set_builder (S := S)) l :
  builder_selectors b = selectors_with_processing true l ->
  _group_by_cell_indices b = [] -> _last_group b = [] ->
  _result_set b = [] ->
  build b
  = Ok [map get_output
          (foldl (fun l r => map (fun s => add_input s (builder_input b r)) l)
                 l (option_list (current b)))].
Proof.
  intros Hsel Hgb Hlast HR. unfold build.
  destruct (current b) as [cur|] eqn:Hc.
  - rewrite (process_aggregate b l cur [] false Hsel Hc)
      by (rewrite ?Hgb, ?Hlast; done).
    cbn [rbind]. rewrite Hlast.
    rewrite (bool_decide_eq_true_2 (@nil managed_bytes_opt = [])) by done.
    rewrite andb_false_r, HR. reflexivity.
  - unfold process_current_row. rewrite Hc. cbn [rbind].
    rewrite HR, Hsel, Hgb. cbn. by rewrite HR.
Qed.

Lemma foldl_map_pointwise {A R : Type} (g : A -> R -> A) (rs : list R) :
  forall l : list A,
    foldl (fun l r => map (fun a => g a r) l) l rs
    = map (fun a => foldl g a rs) l.
Proof.
  induction rs as [|r rs IH]; intros l; cbn [foldl].
  - by rewrite map_id.
  - by rewrite IH, map_map.
Qed.

(** With group-by columns: what [build] returns after the pending row and the
    rows still to come is one row more than the number of key changes. *)
Lemma feed_rows_groups rows :
  forall (b : result_set_builder (S := S)) l cur k,
    builder_selectors b = selectors_with_processing true l ->
    current b = Some cur ->
    row_key (_group_by_cell_indices b) cur = Some k ->
    length (_last_group b) = length (_group_by_cell_indices b) ->
    Forall (fun r => is_Some (row_key (_group_by_cell_indices b) r)) rows ->
    exists out,
      (let? b' := feed_rows b rows in build b') = Ok out /\
      length out
      = (length (_result_set b)
         + changes ((if _group_began b then [Some (_last_group b)] else [])
                    ++ Some k :: map (row_key (_group_by_cell_indices b)) rows)
         + 1)%nat.
Proof.
  induction rows as [|r rest IH]; intros b l cur k Hsel Hc Hk Hlen Hrows;
    cbn [feed_rows rbind].
  - unfold build. rewrite (process_aggregate b l cur k false Hsel Hc Hk Hlen).
    cbn [rbind _result_set builder_selectors _group_by_cell_indices
         is_aggregate].
    rewrite bool_decide_eq_false_2 by (by destruct (_ && _); intros ?%app_eq_nil; naive_solver).
    cbn [andb]. eexists. split; [reflexivity|].
    rewrite length_app. cbn [length map].
    destruct (_group_began b); cbn [andb app changes];
      [|lia].
    destruct (decide (_last_group b = k)) as [->|Hne].
    + rewrite bool_decide_eq_true_2 by done. cbn [negb].
      rewrite decide_True by done. lia.
    + rewrite bool_decide_eq_false_2 by done. cbn [negb].
      rewrite decide_False by congruence. rewrite length_app. cbn. lia.
  - apply Forall_cons in Hrows as [[kr Hkr] Hrest].
    rewrite feed_row_unfold.
    rewrite (process_aggregate b l cur k true Hsel Hc Hk Hlen). cbn [rbind].
    match goal with |- context [feed_rows ?x rest] => set (b1 := x) end.
    destruct (IH b1 (map (fun s => add_input s (builder_input b cur))
                      (if _group_began b && negb (bool_decide (_last_group b = k))
                       then map reset l else l)) r kr)
      as (out & Hrun & Hout); [done|done|exact Hkr| |exact Hrest|].
    { subst b1. cbn. by apply row_key_length in Hk. }
    exists out. split; [exact Hrun|]. rewrite Hout. subst b1.
    cbn [_result_set _group_began _last_group _group_by_cell_indices
         with_current map]. rewrite Hkr.
    destruct (_group_began b); cbn [andb app changes].
    + destruct (decide (_last_group b = k)) as [->|Hne].
      * rewrite bool_decide_eq_true_2 by done. cbn [negb].
        rewrite (decide_True (P := Some k = Some k)) by done. lia.
      * rewrite bool_decide_eq_false_2 by done. cbn [negb].
        rewrite (decide_False (P := Some (_last_group b) = Some k)) by congruence.
        rewrite length_app. cbn [length]. lia.
    + lia.
Qed.

End SelectionRows.

Lemma std_find_snoc (l : list Selection.column_definition_ptr)
    (c d : Selection.column_definition_ptr) :
  Selection.std_find (l ++ [c]) d
  = if decide (Selection.std_find l d < length l)%nat
    then Selection.std_find l d
    else if decide (c = d) then length l else Datatypes.S (length l).
Proof.
  pose proof (std_find_le l d) as Hle.
  case_decide as Hlt.
  - by apply std_find_app_l.
  - rewrite std_find_app_r by lia. simpl. case_decide; lia.
Qed.

(** X16: [add_column_for_post_processing] on a selection of fewer than 2^31
    columns returns the number of columns there were, which is then the
    position of the added column; the column is selected afterwards, the
    columns selected before keep their [index_of], and no other column
    becomes selected. [index_of] of the added column is the returned index
    exactly when the column was not selected before: for a column selected
    already, [index_of] stays at its first occurrence. *)
Theorem post_processing_column_index
    {S : Type} `{Selection.Selector S} (s : Selection.selection (S := S))
    (c : Selection.column_definition_ptr) :
  Z.of_nat (length (Selection._columns s)) < 2 ^ 31 ->
  let idx := (Selection.add_column_for_post_processing s c).1 in
  let s' := (Selection.add_column_for_post_processing s c).2 in
  idx = Z.of_nat (length (Selection._columns s)) /\
  Selection._columns s' !! Z.to_nat idx = Some c /\
  Selection.has_column s' c = true /\
  (Selection.index_of s' c = idx <-> Selection.has_column s c = false) /\
  (forall d, Selection.has_column s d = true ->
             Selection.index_of s' d = Selection.index_of s d) /\
  (forall d, d <> c -> Selection.has_column s' d = Selection.has_column s d).
Proof.
  intros Hlen idx s'. subst idx s'.
  unfold Selection.add_column_for_post_processing, Selection.has_column,
    Selection.index_of.
  cbn [fst snd Selection._columns].
  set (l := Selection._columns s) in *.
  assert (Hidx : (Z.of_nat (length (l ++ [c])) - 1) mod 2 ^ 32
                 = Z.of_nat (length l)).
  { rewrite length_app. cbn [length]. rewrite Z.mod_small; lia. }
  rewrite Hidx, Nat2Z.id. rewrite length_app. cbn [length].
  assert (Hfind : forall d,
            Selection.std_find (l ++ [c]) d
            = if decide (Selection.std_find l d < length l)%nat
              then Selection.std_find l d
              else if decide (c = d) then length l
                   else Datatypes.S (length l))
    by (intros d; apply std_find_snoc).
  pose proof (std_find_le l) as Hle.
  split; [reflexivity|]. split; [by apply list_lookup_middle|].
  split; [|split; [|split]].
  - rewrite Hfind. specialize (Hle c).
    repeat case_decide; try done;
      apply negb_true_iff, Nat.eqb_neq; lia.
  - rewrite Hfind. specialize (Hle c).
    destruct (Nat.eqb_spec (Selection.std_find l c) (length l)) as [He|Hne];
      cbn [negb].
    + rewrite decide_False by lia. rewrite decide_True by done.
      destruct (Nat.eqb_spec (length l) (length l + 1)) as [?|_]; [lia|].
      rewrite to_int32_small by lia. done.
    + rewrite decide_True by lia.
      destruct (Nat.eqb_spec (Selection.std_find l c) (length l + 1))
        as [?|_]; [lia|].
      rewrite to_int32_small by lia. split; [lia|done].
  - intros d Hd. apply negb_true_iff, Nat.eqb_neq in Hd. specialize (Hle d).
    rewrite Hfind. rewrite decide_True by lia.
    destruct (Nat.eqb_spec (Selection.std_find l d) (length l + 1))
      as [?|_]; [lia|].
    destruct (Nat.eqb_spec (Selection.std_find l d) (length l)) as [?|_];
      [lia|done].
  - intros d Hd. rewrite Hfind. specialize (Hle d).
    case_decide.
    + destruct (Nat.eqb_spec (Selection.std_find l d) (length l + 1));
        destruct (Nat.eqb_spec (Selection.std_find l d) (length l)); try lia;
        done.
    + rewrite decide_False by done.
      destruct (Nat.eqb_spec (Datatypes.S (length l)) (length l + 1));
        destruct (Nat.eqb_spec (Selection.std_find l d) (length l)); try lia;
        done.
Qed.

Lemma post_processing_column_index_witness :
  (Selection.add_column_for_post_processing (Selection.padded_selection 2)
     1%positive).1 = 3 /\
  Selection.index_of
    (Selection.add_column_for_post_processing (Selection.padded_selection 2)
       1%positive).2 1%positive = 0.
Proof.
  pose proof (post_processing_column_index (Selection.padded_selection 2)
                1%positive) as Hpost.
  cbv zeta in Hpost.
  destruct Hpost as (Hidx & _ & _ & _ & Hkeep & _); [vm_compute; reflexivity|].
  split; [exact Hidx|]. rewrite Hkeep; reflexivity.
Defined.

(** X17: a simple selection hands the rows through: whatever the rows, and
    whatever group-by indices the builder was given, [build] after the rows
    have been added returns exactly those rows, in the order they were
    added (rows of no cells included). *)
Theorem simple_selection_returns_the_rows
    {S : Type} `{Selection.Selector S} (s : Selection.selection (S := S))
    (is_wildcard : bool) (now : Z) (group_by_cell_indices : list nat)
    (rows : list Selection.row) :
  Selection.selection_class s = Selection.simple_selection is_wildcard ->
  Selection.select_rows s now group_by_cell_indices rows = Ok rows.
Proof.
  intros Hclass. unfold Selection.select_rows.
  destruct (feed_rows_simple rows
              (Selection.make_result_set_builder s now group_by_cell_indices))
    as (b' & Hrun & Hs & Hrows).
  { cbn. unfold Selection.new_selectors. by rewrite Hclass. }
  rewrite Hrun. cbn [rbind]. rewrite build_simple by done. by rewrite Hrows.
Qed.

Lemma simple_selection_returns_the_rows_witness :
  Selection.select_rows (Selection.padded_selection 1) 0 [5%nat]
    [[Some [1]; None]; []; [Some [2]; Some []]]
  = Ok [[Some [1]; None]; []; [Some [2]; Some []]].
Proof.
  apply (simple_selection_returns_the_rows (Selection.padded_selection 1) false).
  reflexivity.
Defined.

(** X18: an aggregating selection without group-by columns returns exactly one
    row, however many rows were added: each selector's output after it has
    taken in every row, in order, starting from the state the factories
    created it in. Nothing is flushed, and no selector is reset, before
    [build]. *)
Theorem aggregate_without_group_by
    {S : Type} `{Selection.Selector S} (s : Selection.selection (S := S))
    (f : Selection.selector_factories (S := S)) (now : Z)
    (rows : list Selection.row) :
  Selection.selection_class s = Selection.selection_with_processing f ->
  Selection.does_aggregation f = true ->
  Selection.select_rows s now [] rows
  = Ok [map (fun sel =>
               Selection.get_output
                 (foldl (fun acc r =>
                           Selection.add_input acc
                             (Selection.builder_input
                                (Selection.make_result_set_builder s now []) r))
                        sel rows))
            (Selection.new_instances f)].
Proof.
  intros Hclass Hagg. unfold Selection.select_rows.
  set (b0 := Selection.make_result_set_builder s now []).
  assert (Hsel0 : Selection.builder_selectors b0
                  = Selection.selectors_with_processing true
                      (Selection.new_instances f)).
  { subst b0. cbn. unfold Selection.new_selectors. by rewrite Hclass, Hagg. }
  destruct (feed_rows_no_group (Selection._timestamps b0) (Selection._ttls b0)
              rows b0 (Selection.new_instances f))
    as (b' & l' & Hrun & Hsel & Hgb & Hlast & Hts & Htt & HR & Hfold);
    [done..|].
  rewrite Hrun. cbn [rbind].
  rewrite (build_no_group b' l') by (done || by rewrite HR).
  unfold Selection.builder_input in *. rewrite Hts, Htt, Hfold.
  cbn [Selection.current b0 Selection.make_result_set_builder option_list app].
  rewrite (foldl_map_pointwise
             (fun a r => Selection.add_input a
                {| Selection.input_cells := r;
                   Selection.input_timestamps := Selection._timestamps b0;
                   Selection.input_ttls := Selection._ttls b0 |})).
  by rewrite map_map.
Qed.

Lemma aggregate_without_group_by_witness :
  Selection.select_rows Selection.count_star_selection 0 []
    [[Some [7]]; [None]; []]
  = Ok [[Some [0; 0; 0; 0; 0; 0; 0; 3]]].
Proof.
  rewrite (aggregate_without_group_by Selection.count_star_selection
             {| Selection.does_aggregation := true;
                Selection.new_instances := [ {| Selection.counted := 0 |} ] |});
    reflexivity.
Defined.

(** X19: an aggregating selection emits one row per group: when every row
    has the cells it is grouped by, [build] returns one row more than there
    are places where a row's group key differs from that of the row before
    it. For no rows at all it returns no row when there are group-by
    columns, and one row when there are none. *)
Theorem group_by_emits_a_row_per_group
    {S : Type} `{Selection.Selector S} (s : Selection.selection (S := S))
    (now : Z) (group_by_cell_indices : list nat) (rows : list Selection.row) :
  Selection.is_aggregate (Selection.new_selectors s) = true ->
  Forall (fun r => is_Some (Selection.row_key group_by_cell_indices r)) rows ->
  exists out,
    Selection.select_rows s now group_by_cell_indices rows = Ok out /\
    length out
    = match rows with
      | [] => if decide (group_by_cell_indices = []) then 1%nat else 0%nat
      | _ :: _ =>
          Datatypes.S
            (Selection.changes
               (map (Selection.row_key group_by_cell_indices) rows))
      end.
Proof.
  intros Hagg Hrows. unfold Selection.select_rows.
  destruct (aggregate_new_selectors s Hagg) as [l Hl].
  destruct rows as [|r rest].
  - cbn [Selection.feed_rows rbind]. unfold Selection.build.
    cbn [Selection.process_current_row Selection.make_result_set_builder
         Selection.current rbind Selection._result_set
         Selection.builder_selectors Selection._group_by_cell_indices].
    rewrite Hl. cbn [Selection.is_aggregate].
    rewrite bool_decide_eq_true_2 by done. cbn [andb].
    destruct (decide (group_by_cell_indices = [])) as [Hgb|Hgb].
    + rewrite bool_decide_eq_true_2 by done. cbn. by eexists.
    + rewrite bool_decide_eq_false_2 by done. by eexists.
  - apply Forall_cons in Hrows as [[k Hk] Hrest].
    cbn [Selection.feed_rows]. rewrite feed_row_unfold.
    cbn [Selection.process_current_row Selection.make_result_set_builder
         Selection.current rbind].
    match goal with
    | |- context [Selection.feed_rows ?x rest] => set (b1 := x)
    end.
    destruct (feed_rows_groups rest b1 l r k)
      as (out & Hrun & Hout);
      [done|done|exact Hk|subst b1; cbn; by rewrite length_replicate|
       exact Hrest|].
    exists out. split; [exact Hrun|]. rewrite Hout. subst b1.
    cbn [Selection._result_set Selection._group_began Selection.with_current
         Selection._group_by_cell_indices Selection.make_result_set_builder
         length app map].
    rewrite Hk. lia.
Qed.

Lemma group_by_emits_a_row_per_group_witness :
  exists out,
    Selection.select_rows Selection.count_star_selection 0 [0%nat]
      [[Some [1]]; [Some [1]]; [Some [2]]] = Ok out /\
    length out = 2%nat.
Proof.
  destruct (group_by_emits_a_row_per_group Selection.count_star_selection 0
              [0%nat] [[Some [1]]; [Some [1]]; [Some [2]]])
    as (out & Hrun & Hlen).
  - reflexivity.
  - repeat constructor; by eexists.
  - exists out. split; [exact Hrun|]. rewrite Hlen. vm_compute. reflexivity.
Defined.

(** Counting per group, evaluated: two rows of the first key and one of the
    second. *)
Example count_per_group :
  Selection.select_rows Selection.count_star_selection 0 [0%nat]
    [[Some [1]]; [Some [1]]; [Some [2]]]
  = Ok [[Some [0; 0; 0; 0; 0; 0; 0; 2]]; [Some [0; 0; 0; 0; 0; 0; 0; 1]]].
Proof. vm_compute. reflexivity. Qed.

(** ** A wrapper around a reader of the caller *)

Section BorrowedReader.
Import DelegatingReader.

Context {R F P Q : Type} `{ReaderImpl R F P Q}.

Implicit Types (st : state (R := R) (F := F)) (u : flat_mutation_reader_v2 (R := R)).

Local Ltac no_close :=
  let Hin := fresh "Hin" in
  intros Hin;
  repeat (apply elem_of_cons in Hin as [?|Hin]; [discriminate|]);
  by apply elem_of_nil in Hin.

(** A borrowing wrapper reads and writes its reader in the caller's memory. *)
Lemma borrowed_set_underlying a st u :
  borrows a st ->
  (set_underlying st u).1 = <[a := u]> st.1 /\ (set_underlying st u).2 = st.2.
Proof. intros [Hp _]. unfold set_underlying. by rewrite Hp. Qed.

Lemma borrowed_underlying a st : borrows a st -> underlying st = (st.1) !! a.
Proof. intros [Hp _]. unfold underlying. by rewrite Hp. Qed.

(** With no failing operation the outcome is that of the operation as
    modelled without failures. *)
Lemma apply_operation_ex_never_failing (o : operation) st :
  apply_operation_ex (fun _ _ => false) o st
  = (st' ← apply_operation o st; Some (st', false)).
Proof.
  destruct o as [|pr|pr|]; cbn [apply_operation_ex apply_operation].
  - unfold fill_buffer_ex, fill_buffer.
    destruct (buffer_is_full (_buffer st.2)); [done|].
    by destruct (underlying st).
  - unfold fast_forward_to_position_ex, fast_forward_to_position.
    by destruct (underlying _).
  - unfold fast_forward_to_partition_ex, fast_forward_to_partition.
    by destruct (underlying _).
  - unfold next_partition_ex, next_partition.
    destruct (underlying _); [|done]. cbn [mbind option_bind].
    by destruct (buffer_clear_to_next_partition (_buffer st.2)).
Qed.

Section Failing.

Variable fails : operation (P := P) (Q := Q) -> R -> bool.

(** Whether or not the forwarded operation fails, the reader at [a] is left
    with further operations, none of them a close, and the other readers of
    the caller as they were. *)
Lemma borrowed_apply_operation_ex a (o : operation) st u :
  borrows a st -> (st.1) !! a = Some u ->
  exists st' failed u' extra,
    apply_operation_ex fails o st = Some (st', failed) /\ borrows a st' /\
    (st'.1) !! a = Some u' /\
    performed u' = performed u ++ extra /\
    (call_close ∉ extra) /\
    forall a', a' <> a -> (st'.1) !! a' = (st.1) !! a'.
Proof.
  intros Hb Hu. destruct o as [|pr|pr|]; cbn [apply_operation_ex].
  - unfold fill_buffer_ex. destruct (buffer_is_full (_buffer st.2)).
    + exists st, false, u, []. rewrite app_nil_r.
      split; [done|]. split; [done|]. split; [done|]. split; [done|].
      split; [no_close|done].
    + rewrite (borrowed_underlying a) by done. rewrite Hu.
      cbn [mbind option_bind].
      destruct (fails do_fill_buffer (impl u)).
      * eexists _, true, _, [call_fill_buffer].
        split; [reflexivity|]. split; [by apply borrows_set_underlying|].
        rewrite (proj1 (borrowed_set_underlying a st _ Hb)).
        rewrite lookup_insert_eq. split; [reflexivity|]. split; [done|].
        split; [no_close|]. intros a' Ha. by rewrite lookup_insert_ne.
      * eexists _, false, _, [call_fill_buffer; call_move_buffer_content_to].
        split; [reflexivity|]. split.
        { by apply borrows_set_local, borrows_set_underlying. }
        cbn [set_local fst].
        rewrite (proj1 (borrowed_set_underlying a st _ Hb)).
        rewrite lookup_insert_eq. split; [reflexivity|].
        split; [cbn; by rewrite <- app_assoc|]. split; [no_close|].
        intros a' Ha. by rewrite lookup_insert_ne.
  - unfold fast_forward_to_position_ex.
    pose proof (borrows_set_local a st (buffer_forward_to pr (_buffer st.2))
                  false Hb) as Hb1.
    rewrite (borrowed_underlying a) by done. cbn [set_local fst]. rewrite Hu.
    cbn [mbind option_bind].
    eexists _, _, _, [call_fast_forward_to_position].
    split; [reflexivity|]. split; [by apply borrows_set_underlying|].
    rewrite (proj1 (borrowed_set_underlying a _ _ Hb1)). cbn [set_local fst].
    rewrite lookup_insert_eq. split; [reflexivity|]. split; [done|].
    split; [no_close|]. intros a' Ha. by rewrite lookup_insert_ne.
  - unfold fast_forward_to_partition_ex.
    pose proof (borrows_set_local a st [] false Hb) as Hb1.
    rewrite (borrowed_underlying a) by done. cbn [set_local fst]. rewrite Hu.
    cbn [mbind option_bind].
    eexists _, _, _, [call_fast_forward_to_partition].
    split; [reflexivity|]. split; [by apply borrows_set_underlying|].
    rewrite (proj1 (borrowed_set_underlying a _ _ Hb1)). cbn [set_local fst].
    rewrite lookup_insert_eq. split; [reflexivity|]. split; [done|].
    split; [no_close|]. intros a' Ha. by rewrite lookup_insert_ne.
  - unfold next_partition_ex.
    pose proof (borrows_set_local a st
                  (buffer_clear_to_next_partition (_buffer st.2))
                  (_end_of_stream st.2) Hb) as Hb1.
    rewrite (borrowed_underlying a) by done. cbn [set_local fst]. rewrite Hu.
    cbn [mbind option_bind].
    destruct (buffer_clear_to_next_partition (_buffer st.2)) as [|x rest].
    + destruct (fails do_next_partition (impl u)).
      * eexists _, true, _, [call_next_partition].
        split; [reflexivity|]. split; [by apply borrows_set_underlying|].
        rewrite (proj1 (borrowed_set_underlying a _ _ Hb1)).
        cbn [set_local fst].
        rewrite lookup_insert_eq. split; [reflexivity|]. split; [done|].
        split; [no_close|]. intros a' Ha. by rewrite lookup_insert_ne.
      * eexists _, false, _, [call_next_partition].
        split; [reflexivity|]. split.
        { by apply borrows_set_local, borrows_set_underlying. }
        cbn [set_local fst].
        rewrite (proj1 (borrowed_set_underlying a _ _ Hb1)).
        cbn [set_local fst].
        rewrite lookup_insert_eq. split; [reflexivity|]. split; [done|].
        split; [no_close|]. intros a' Ha. by rewrite lookup_insert_ne.
    + eexists _, false, u, [].
      split; [reflexivity|]. split; [by apply borrows_set_local|].
      cbn [set_local fst]. rewrite app_nil_r.
      split; [done|]. split; [done|]. split; [no_close|done].
Qed.

Lemma borrowed_apply_operations_ex a (os : list operation) :
  forall st u,
    borrows a st -> (st.1) !! a = Some u ->
    exists st' outcomes u' extra,
      apply_operations_ex fails os st = Some (st', outcomes) /\
      length outcomes = length os /\ borrows a st' /\
      (st'.1) !! a = Some u' /\
      performed u' = performed u ++ extra /\
      (call_close ∉ extra) /\
      forall a', a' <> a -> (st'.1) !! a' = (st.1) !! a'.
Proof.
  induction os as [|o rest IH]; intros st u Hb Hu; cbn [apply_operations_ex].
  - exists st, [], u, []. rewrite app_nil_r.
    split; [done|]. split; [done|]. split; [done|]. split; [done|].
    split; [done|]. split; [no_close|done].
  - destruct (borrowed_apply_operation_ex a o st u Hb Hu)
      as (st1 & failed & u1 & extra1 & -> & Hb1 & Hu1 & Hp1 & Hc1 & Hf1).
    cbn [mbind option_bind fst snd].
    destruct (IH st1 u1 Hb1 Hu1)
      as (st2 & outcomes & u2 & extra2 & -> & Hlen & Hb2 & Hu2 & Hp2 & Hc2 & Hf2).
    cbn [mbind option_bind fst snd].
    exists st2, (failed :: outcomes), u2, (extra1 ++ extra2).
    split; [done|]. split; [cbn; by rewrite Hlen|].
    split; [exact Hb2|]. split; [exact Hu2|].
    split; [by rewrite Hp2, Hp1, app_assoc|].
    split; [by intros [?|?]%elem_of_app|].
    intros a' Ha. rewrite Hf2, Hf1; done.
Qed.

End Failing.

End BorrowedReader.

(** X20: a wrapper built from an lvalue reference to a reader of the caller,
    taken through any operations, whether or not the operations it forwards
    to that reader fail and with the caller going on after a failure: every
    operation finds the referenced reader in the caller's memory, and when
    the wrapper has been closed after them that memory holds the same readers
    as before except that the referenced reader has undergone further
    operations, none of which is a close: every other reader is untouched,
    and closing the referenced reader is left to the caller. *)
Theorem borrowed_reader_is_left_open
    {R F P Q : Type} `{DelegatingReader.ReaderImpl R F P Q}
    (fails : DelegatingReader.operation (P := P) (Q := Q) -> R -> bool)
    (m : gmap DelegatingReader.address
           (DelegatingReader.flat_mutation_reader_v2 (R := R)))
    (a : DelegatingReader.address)
    (u : DelegatingReader.flat_mutation_reader_v2 (R := R))
    (os : list (DelegatingReader.operation (P := P) (Q := Q))) :
  m !! a = Some u ->
  exists st outcomes u' extra,
    DelegatingReader.apply_operations_ex fails os
      (m, DelegatingReader.delegating_reader_v2_ref (F := F) a)
    = Some (st, outcomes) /\
    length outcomes = length os /\
    ((DelegatingReader.close st).1) !! a = Some u' /\
    DelegatingReader.performed u' = DelegatingReader.performed u ++ extra /\
    (DelegatingReader.call_close ∉ extra) /\
    DelegatingReader.times_closed u' = DelegatingReader.times_closed u /\
    forall a', a' <> a -> ((DelegatingReader.close st).1) !! a' = m !! a'.
Proof.
  intros Hu.
  destruct (borrowed_apply_operations_ex fails a os
              (m, DelegatingReader.delegating_reader_v2_ref a) u)
    as (st & outcomes & u' & extra & Hrun & Hlen & [Hp Hh] & Hu' & Hperf
        & Hclose & Hframe);
    [by split|exact Hu|].
  exists st, outcomes, u', extra. split; [exact Hrun|]. split; [exact Hlen|].
  assert (Hst : DelegatingReader.close st = st)
    by (unfold DelegatingReader.close; by rewrite Hh).
  rewrite Hst. split; [exact Hu'|]. split; [exact Hperf|].
  split; [exact Hclose|]. split; [|exact Hframe].
  unfold DelegatingReader.times_closed. rewrite Hperf, filter_app, length_app.
  replace (filter (fun c => c = DelegatingReader.call_close) extra)
    with (@nil DelegatingReader.reader_call); [cbn; lia|].
  symmetry. clear -Hclose. induction extra as [|c extra IH]; [done|].
  rewrite filter_cons_False by set_solver. apply IH. set_solver.
Qed.

Lemma borrowed_reader_is_left_open_witness :
  exists st outcomes u' extra,
    DelegatingReader.apply_operations_ex DelegatingReader.list_reader_fails
      [DelegatingReader.do_fill_buffer; DelegatingReader.do_next_partition;
       DelegatingReader.do_fill_buffer; DelegatingReader.do_fill_buffer]
      (DelegatingReader.two_readers,
       DelegatingReader.delegating_reader_v2_ref 1%positive)
    = Some (st, outcomes) /\
    length outcomes = 4%nat /\
    ((DelegatingReader.close st).1) !! 1%positive = Some u' /\
    DelegatingReader.performed u'
    = DelegatingReader.performed (DelegatingReader.fresh_list_reader [1; 2; 3]%nat)
      ++ extra /\
    (DelegatingReader.call_close ∉ extra) /\
    DelegatingReader.times_closed u'
    = DelegatingReader.times_closed
        (DelegatingReader.fresh_list_reader [1; 2; 3]%nat) /\
    forall a', a' <> 1%positive ->
      ((DelegatingReader.close st).1) !! a'
      = DelegatingReader.two_readers !! a'.
Proof.
  apply (borrowed_reader_is_left_open DelegatingReader.list_reader_fails
           DelegatingReader.two_readers 1%positive
           (DelegatingReader.fresh_list_reader [1; 2; 3]%nat)
           [DelegatingReader.do_fill_buffer; DelegatingReader.do_next_partition;
            DelegatingReader.do_fill_buffer; DelegatingReader.do_fill_buffer]).
  reflexivity.
Defined.

(** The same run, evaluated: the next-partition and the last fill fail, and
    the reader at address 1 has seen the six operations the wrapper
    forwarded, the failed ones included. *)
Example borrowed_reader_with_failures :
  (r ← DelegatingReader.apply_operations_ex DelegatingReader.list_reader_fails
         [DelegatingReader.do_fill_buffer; DelegatingReader.do_next_partition;
          DelegatingReader.do_fill_buffer; DelegatingReader.do_fill_buffer]
         (DelegatingReader.two_readers,
          DelegatingReader.delegating_reader_v2_ref 1%positive);
   u ← ((DelegatingReader.close r.1).1) !! 1%positive;
   Some (r.2, DelegatingReader.performed u))
  = Some ([false; true; false; true],
          [DelegatingReader.call_fill_buffer;
           DelegatingReader.call_move_buffer_content_to;
           DelegatingReader.call_next_partition;
           DelegatingReader.call_fill_buffer;
           DelegatingReader.call_move_buffer_content_to;
           DelegatingReader.call_fill_buffer]).
Proof. vm_compute. reflexivity. Qed.
